(** * A shallow embedding of the VRP genetic solver (solver worker)

    The solver is a TypeScript class [VRPSolver] built on a handful of
    [radash] helpers ([range], [shuffle], [sort], [draw], [max]).

    Modelling decisions, all visible in the definitions below:
    - a JavaScript [number] that carries a cost (kilometres, hours, fitness)
      is a real number: the solver's definitions give the value that the
      formulas denote in exact arithmetic, [Math.sin], [Math.cos],
      [Math.sqrt] are the real functions and there is no NaN.  What is
      proved about which routes, which terms and which formula holds of the
      doubles of the engine as it stands; an equation between two different
      expressions holds of them up to rounding only;
    - where a property turns on the rounding of doubles, module [Doubles]
      repeats the computation on binary64 numbers, on the arguments on which
      the trigonometric functions of the engine are pinned down;
    - a draw of [Math.random ()] and the index computed from it are kept
      exactly, the product of the draw and the array length being rounded to
      a double as the engine rounds it;
    - a number held by the form can be NaN (a cleared input), and [isEmpty]
      is modelled on it;
    - a [number] used as an array index or a stop identifier is a [nat];
    - [null] and [undefined] are [None];
    - a thrown [TypeError] (property access on [undefined] or [null]) is
      [None] in the result of the function that throws;
    - [Math.random()] reads the next value of an explicit random source. *)

From Stdlib Require Import Bool Arith String.
From Stdlib Require Import Reals Lra Lia ZArith NArith List Permutation Sorted.
From Stdlib Require PrimFloat.
Import ListNotations.

Open Scope R_scope.

(* ================================================================== *)
(** * The JavaScript run time *)
(* ================================================================== *)

Module JS.

(** ** Exceptions: [None] is a thrown [TypeError] *)

Definition bind {A B : Type} (m : option A) (k : A -> option B) : option B :=
  match m with
  | Some a => k a
  | None => None
  end.

Fixpoint mapM {A B : Type} (f : A -> option B) (l : list A) : option (list B) :=
  match l with
  | [] => Some []
  | x :: xs =>
      bind (f x) (fun y => bind (mapM f xs) (fun ys => Some (y :: ys)))
  end.

(** ** Numbers *)

Definition Rleb (x y : R) : bool := if Rle_dec x y then true else false.
Definition Rgtb (x y : R) : bool := if Rgt_dec x y then true else false.

(** [Math.floor]. *)
Definition Math_floor (x : R) : R := IZR (Zfloor x).

(** Truncation towards zero, the rounding that [%] uses. *)
Definition trunc (x : R) : Z :=
  if Rle_dec 0 x then Zfloor x else Zceil x.

(** The remainder operator [x % y]: the result has the sign of the
    dividend, [x - y * trunc (x / y)]. *)
Definition rem (x y : R) : R := x - y * IZR (trunc (x / y)).

(** [Math.atan2 (y, x)]. *)
Definition Math_atan2 (y x : R) : R :=
  if Rlt_dec 0 x then atan (y / x)
  else if Rlt_dec x 0 then
    if Rle_dec 0 y then atan (y / x) + PI else atan (y / x) - PI
  else if Rlt_dec 0 y then PI / 2
  else if Rlt_dec y 0 then - (PI / 2)
  else 0.

(** [ToNumber] on a value that is a number or [null]: [null] is [+0]. *)
Definition toNumber (v : option R) : R :=
  match v with
  | Some x => x
  | None => 0
  end.

(** ** Arrays *)

(** A relative index of [Array.prototype.slice]: a negative argument counts
    from the end, and the result is clamped to [0 .. len]. *)
Definition relIndex (len k : Z) : Z :=
  if (k <? 0)%Z then Z.max (len + k) 0 else Z.min k len.

(** [array.slice (start, end)]. *)
Definition slice {T : Type} (array : list T) (start end_ : Z) : list T :=
  let len := Z.of_nat (length array) in
  let k := relIndex len start in
  let final := relIndex len end_ in
  firstn (Z.to_nat (final - k)) (skipn (Z.to_nat k) array).

(** [array.slice (start)]. *)
Definition sliceFrom {T : Type} (array : list T) (start : Z) : list T :=
  slice array start (Z.of_nat (length array)).

(** [Array.prototype.sort] with a consistent comparator is a stable sort.
    [le a b] stands for [comparator (a, b) <= 0]: [a] may stay in front
    of [b]. *)
Fixpoint insert {T : Type} (le : T -> T -> bool) (x : T) (l : list T) : list T :=
  match l with
  | [] => [x]
  | y :: l' => if le x y then x :: y :: l' else y :: insert le x l'
  end.

Fixpoint Array_sort {T : Type} (le : T -> T -> bool) (array : list T) : list T :=
  match array with
  | [] => []
  | x :: xs => insert le x (Array_sort le xs)
  end.

(** [array.reduce (f)] without an initial value, on a non-empty array. *)
Definition reduce1 {T : Type} (f : T -> T -> T) (x : T) (xs : list T) : T :=
  fold_left f xs x.

(** [array.join (sep)] on an array of strings. *)
Definition join (sep : string) (l : list string) : string :=
  String.concat sep l.

(** ** The random source

    [Math.random ()] returns a number in [0, 1).  The source is an
    infinite sequence of raw draws read through a cursor; a draw is kept
    as its numerator over [2^53], so that two draws compare as their
    numerators do. *)

Record Rng : Type := mkRng { raw : nat -> N; cursor : nat }.

Definition RANDOM_DENOMINATOR : N := 2 ^ 53.

Definition Math_random (g : Rng) : N * Rng :=
  ((raw g (cursor g) mod RANDOM_DENOMINATOR)%N,
   mkRng (raw g) (S (cursor g))).

(** The double nearest to [p / 2^53], again as a numerator over [2^53]:
    [p] keeps its 53 leading bits, the bits below them are rounded to the
    nearest, ties to the even neighbour.  This is the rounding of every
    arithmetic operation on doubles: the exact product, or the exact sum,
    of the operands is rounded with it. *)
Definition roundDouble (p : N) : N :=
  let shift := (N.size p - 53)%N in
  if (shift =? 0)%N then p
  else
    let ulp := (2 ^ shift)%N in
    let q := (p / ulp)%N in
    let low := (p mod ulp)%N in
    let half := (2 ^ (shift - 1))%N in
    if (half <? low)%N || ((low =? half)%N && N.odd q)
    then ((q + 1) * ulp)%N
    else (q * ulp)%N.

End JS.

(* ================================================================== *)
(** * The radash helpers the solver imports *)
(* ================================================================== *)

Module Radash.
Import JS.

(** [range (startOrLength, end, valueOrMapper)] with the default step 1:
<<
    const start = end ? startOrLength : 0
    const final = end ?? startOrLength
    for (let i = start; i <= final; i += step) { yield mapper(i); ... }
>>
    Both calls of the solver pass [end]; an [end] of [0] is falsy, so the
    generator then starts at [0]. *)
Definition range {T : Type} (startOrLength end_ : nat) (mapper : nat -> T) : list T :=
  let start := if Nat.eqb end_ 0 then 0%nat else startOrLength in
  let final := end_ in
  map mapper (seq start (final + 1 - start)).

(** [random (min, max)] is
    [Math.floor (Math.random () * (max - min + 1) + min)]: the product is
    rounded to a double, so is the sum, and the floor is taken of the
    result. *)
Definition random (min max : nat) (g : Rng) : nat * Rng :=
  let (r, g') := Math_random g in
  let product := roundDouble (r * N.of_nat (max - min + 1)) in
  let sum := roundDouble (product + N.of_nat min * RANDOM_DENOMINATOR) in
  (N.to_nat (sum / RANDOM_DENOMINATOR), g').

(** [draw (array)]: [null] on an empty array, otherwise the element at a
    random index. *)
Definition draw {T : Type} (array : list T) (g : Rng) : option T * Rng :=
  let max := length array in
  if Nat.eqb max 0 then (None, g)
  else
    let (index, g') := random 0 (max - 1) g in
    (nth_error array index, g').

(** [shuffle (array)]: tag every element with a random number, sort by
    the tag ([a.rand - b.rand]), drop the tags. *)
Fixpoint tag {T : Type} (array : list T) (g : Rng) : list (N * T) * Rng :=
  match array with
  | [] => ([], g)
  | a :: rest =>
      let (rand, g1) := Math_random g in
      let (tagged, g2) := tag rest g1 in
      ((rand, a) :: tagged, g2)
  end.

Definition shuffle {T : Type} (array : list T) (g : Rng) : list T * Rng :=
  let (tagged, g') := tag array g in
  (map snd (Array_sort (fun a b => (fst a <=? fst b)%N) tagged), g').

(** [sort (array, getter, true)]: descending by [getter], the comparator
    being [getter (b) - getter (a)].  The getter can throw; it is called
    on every element as soon as there are two of them. *)
Definition keyDesc {T : Type} (a b : T * R) : bool := Rleb (snd b) (snd a).

Definition sort_desc {T : Type} (array : list T) (getter : T -> option R)
  : option (list T) :=
  match array with
  | [] | [_] => Some array
  | _ =>
      bind (mapM (fun a => bind (getter a) (fun k => Some (a, k))) array)
        (fun keyed => Some (map fst (Array_sort keyDesc keyed)))
  end.

(** [boil] and [max]: [null] on an empty array, otherwise a left-to-right
    [reduce] that keeps [a] when [a > b] and [b] otherwise. *)
Definition boil {T : Type} (array : list T) (compareFunc : T -> T -> T) : option T :=
  match array with
  | [] => None
  | x :: xs => Some (reduce1 compareFunc x xs)
  end.

Definition max (array : list R) : option R :=
  boil array (fun a b => if Rgtb a b then a else b).

End Radash.

(* ================================================================== *)
(** * The solver *)
(* ================================================================== *)

Import JS.

(** ** Types (types.d.ts) *)

Record Coord : Type := mkCoord { longitude : R; latitude : R }.

Record VRPRoute : Type := mkVRPRoute {
  paths : list Coord;
  indices : list nat;
  time : R;
  driveTime : R;
  distance : R;
  googleMapUrl : string
}.

(** [totalTime] is declared a [number]; [solve] copies it from the fitness
    evaluation, where it is the result of radash's [max], a number or
    [null]. *)
Record VRPSolve : Type := mkVRPSolve {
  routes : list VRPRoute;
  totalDistance : R;
  totalTime : option R
}.

Inductive PlanMode : Type := TimeOptimized | DistanceOptimized | Balance.

Record PlanInput : Type := mkPlanInput {
  warehouse : Coord;
  input_stops : list Coord;
  mode : PlanMode
}.

(** An individual is a [number[]] of stop indices and zero markers. *)
Definition Individual : Type := list nat.

(** The object that [getFitness] returns. *)
Record FitnessResult : Type := mkFitnessResult {
  fitness : R;
  fit_routes : list (list nat);
  fit_totalDistance : R;
  fit_totalTime : option R
}.

(** The fields of the class. *)
Record VRPSolver : Type := mkVRPSolver {
  weightTime : R;
  weightDistance : R;
  driverNum : nat;
  coords : list Coord;
  stops : list Coord;
  population : list Individual;
  individualNum : nat;
  selectedNum : nat;
  iterNum : nat
}.

Definition set_population (s : VRPSolver) (p : list Individual) : VRPSolver :=
  mkVRPSolver (weightTime s) (weightDistance s) (driverNum s) (coords s)
    (stops s) p (individualNum s) (selectedNum s) (iterNum s).

(** ** Geometry *)

Definition DRIVE_SPEED : R := 50.

Definition toRadians (degrees : R) : R := degrees * PI / 180.

(** The haversine formula, in exact arithmetic.  In the doubles of the engine
    the term [a] can exceed 1 by a rounding error between (nearly) antipodal
    coordinates, and the distance is then NaN: nothing is stated below about
    the sign or the range of the distance between arbitrary coordinates.
    [Doubles.haversineDistance] is the same function on doubles. *)
Definition haversineDistance (coord1 coord2 : Coord) : R :=
  let lon1 := longitude coord1 in
  let lat1 := latitude coord1 in
  let lon2 := longitude coord2 in
  let lat2 := latitude coord2 in
  let R_ := 6371 in
  let lat1Rad := toRadians lat1 in
  let lat2Rad := toRadians lat2 in
  let deltaLatRad := toRadians (lat2 - lat1) in
  let deltaLonRad := toRadians (lon2 - lon1) in
  let a := sin (deltaLatRad / 2) * sin (deltaLatRad / 2) +
           cos lat1Rad * cos lat2Rad *
           sin (deltaLonRad / 2) * sin (deltaLonRad / 2) in
  let c := 2 * Math_atan2 (sqrt a) (sqrt (1 - a)) in
  R_ * c.

Definition getDistanceBetweenCoords (coord1 coord2 : Coord) : R :=
  haversineDistance coord1 coord2.

(** ** Cost model *)

Definition getRouteTime (distance : R) : R :=
  let driverTime := distance / DRIVE_SPEED in
  let fullDay := Math_floor (driverTime / 8) in
  let lasyTime := rem driverTime 8 in
  fullDay * 24 + lasyTime.

(** The loop of [getRouteDistance] over consecutive entries of [fullRoute];
    [this.coords[k]] is [undefined] out of range, and [haversineDistance]
    throws when it destructures [undefined].  The legs are added from left
    to right; in exact arithmetic the order does not change the sum, in
    doubles it does ([Doubles.routeLoop]). *)
Fixpoint routeLoop (coords : list Coord) (fullRoute : list nat) (distance : R)
  : option R :=
  match fullRoute with
  | i :: ((j :: _) as rest) =>
      bind (nth_error coords i) (fun c1 =>
      bind (nth_error coords j) (fun c2 =>
      routeLoop coords rest (distance + getDistanceBetweenCoords c1 c2)))
  | _ => Some distance
  end.

Definition getRouteDistance (s : VRPSolver) (route : list nat) : option R :=
  let fullRoute := 0%nat :: route ++ [0%nat] in
  routeLoop (coords s) fullRoute 0.

(** ** Fitness *)

(** One turn of the decoding loop, at index [i]; the state is
    [(routes, warehouseIdx)]. *)
Definition decodeStep (individual : Individual)
  (st : list (list nat) * Z) (i : nat) : list (list nat) * Z :=
  let (routes, warehouseIdx) := st in
  match nth_error individual i with
  | Some O =>
      let route := slice individual (warehouseIdx + 1) (Z.of_nat i) in
      ((if (0 <? length route)%nat then routes ++ [route] else routes),
       Z.of_nat i)
  | _ => st
  end.

(** The first half of [getFitness]: the loop runs [i] from [0] to
    [individualNum - 1]; then the last route is taken unless the loop
    stopped on a marker at [individualNum - 1]. *)
Definition decode (s : VRPSolver) (individual : Individual) : list (list nat) :=
  let (routes, warehouseIdx) :=
    fold_left (decodeStep individual) (seq 0 (individualNum s)) ([], (-1)%Z) in
  if negb (warehouseIdx =? Z.of_nat (individualNum s) - 1)%Z then
    let route := sliceFrom individual (warehouseIdx + 1) in
    if (0 <? length route)%nat then routes ++ [route] else routes
  else routes.

(** The second half: distances, totals and cost, in exact arithmetic.  The
    routes, the terms of the two totals and the formula of the cost are
    those of the code; its doubles round every operation. *)
Definition getFitness (s : VRPSolver) (individual : Individual)
  : option FitnessResult :=
  let routes := decode s individual in
  bind (mapM (getRouteDistance s) routes) (fun distances =>
  let totalDistance := fold_left Rplus distances 0 in
  let totalTime := Radash.max (map getRouteTime distances) in
  let cost := (weightTime s * toNumber totalTime
               + weightDistance s * totalDistance)
              / (weightTime s + weightDistance s) in
  Some (mkFitnessResult (- cost) routes totalDistance totalTime)).

(** ** Population *)

(** The array that [initPopulation] shuffles. *)
Definition baseIndividual (s : VRPSolver) : Individual :=
  Radash.range 1 (length (stops s)) (fun i => i)
  ++ Radash.range 1 (driverNum s - 1) (fun _ => 0%nat).

Fixpoint initLoop (s : VRPSolver) (n : nat) (pop : list Individual) (g : Rng)
  : list Individual * Rng :=
  match n with
  | O => (pop, g)
  | S n' =>
      let (ind, g') := Radash.shuffle (baseIndividual s) g in
      initLoop s n' (pop ++ [ind]) g'
  end.

Definition initPopulation (s : VRPSolver) (g : Rng) : VRPSolver * Rng :=
  let (pop, g') := initLoop s (individualNum s) (population s) g in
  (set_population s pop, g').

(** [new VRPSolver (warehouse, stops)], field initialisers included. *)
Definition new_VRPSolver (warehouse : Coord) (stops : list Coord) (g : Rng)
  : VRPSolver * Rng :=
  initPopulation
    (mkVRPSolver 1 1 10 (warehouse :: stops) stops [] 100 50 200) g.

Definition setWeights (s : VRPSolver) (weightTime weightDistance : R) : VRPSolver :=
  mkVRPSolver weightTime weightDistance (driverNum s) (coords s) (stops s)
    (population s) (individualNum s) (selectedNum s) (iterNum s).

(** ** Evolution *)

Definition fitnessOf (s : VRPSolver) (individual : Individual) : option R :=
  bind (getFitness s individual) (fun r => Some (fitness r)).

Definition select (s : VRPSolver) : option (list Individual) :=
  bind (Radash.sort_desc (population s) (fitnessOf s)) (fun sorted =>
  Some (slice sorted 0 (Z.of_nat (selectedNum s)))).

(** The loop of [mutation]; [shuffle (null)] throws when [draw] finds the
    population empty. *)
Fixpoint mutationLoop (s : VRPSolver) (n : nat) (mutations : list Individual)
  (g : Rng) : option (list Individual * Rng) :=
  match n with
  | O => Some (mutations, g)
  | S n' =>
      let (source, g1) := Radash.draw (population s) g in
      bind source (fun src =>
      let (mutant, g2) := Radash.shuffle src g1 in
      mutationLoop s n' (mutations ++ [mutant]) g2)
  end.

Definition mutation (s : VRPSolver) (g : Rng) : option (list Individual * Rng) :=
  mutationLoop s (individualNum s - selectedNum s) [] g.

Definition reproduce (s : VRPSolver) (g : Rng) : option (VRPSolver * Rng) :=
  bind (select s) (fun selectedIndividuals =>
  bind (mutation s g) (fun '(mutations, g') =>
  Some (set_population s (selectedIndividuals ++ mutations), g'))).

(** [n] turns of the loop at the head of [solve]. *)
Fixpoint evolve (n : nat) (s : VRPSolver) (g : Rng) : option (VRPSolver * Rng) :=
  match n with
  | O => Some (s, g)
  | S n' => bind (reproduce s g) (fun '(s', g') => evolve n' s' g')
  end.

(** ** The result *)

Definition MAP_BASE_URL : string := "https://www.google.com/maps/dir/".

Section Solve.

(** The conversion of a number to a string in a template literal. *)
Variable Number_toString : R -> string.

Definition coordText (path : Coord) : string :=
  (Number_toString (latitude path) ++ "," ++ Number_toString (longitude path))%string.

(** The callback of [routes.map] in [solve].  [res.paths] holds
    [this.coords[idx]] for every index; the template literal throws on an
    [undefined] entry. *)
Definition buildRoute (s : VRPSolver) (route : list nat) : option VRPRoute :=
  bind (getRouteDistance s route) (fun distance =>
  let driveTime := distance / DRIVE_SPEED in
  let time := getRouteTime distance in
  let indices := 0%nat :: route ++ [0%nat] in
  bind (mapM (nth_error (coords s)) indices) (fun paths =>
  let coords := map coordText paths in
  let googleMapUrl := (MAP_BASE_URL ++ join "/" coords)%string in
  Some (mkVRPRoute paths indices time driveTime distance googleMapUrl))).

(** The part of [solve] after the loop. *)
Definition assemble (s : VRPSolver) : option VRPSolve :=
  bind (Radash.sort_desc (population s) (fitnessOf s)) (fun results =>
  bind (nth_error results 0) (fun best =>
  bind (getFitness s best) (fun r =>
  bind (mapM (buildRoute s) (fit_routes r)) (fun routes =>
  Some (mkVRPSolve routes (fit_totalDistance r) (fit_totalTime r)))))).

Definition solve (s : VRPSolver) (g : Rng) : option (VRPSolve * Rng) :=
  bind (evolve (iterNum s) s g) (fun '(s', g') =>
  bind (assemble s') (fun plan => Some (plan, g'))).

Definition generate (formData : PlanInput) (g : Rng) : option (VRPSolve * Rng) :=
  let (solver, g') := new_VRPSolver (warehouse formData) (input_stops formData) g in
  let solver' :=
    match mode formData with
    | TimeOptimized => setWeights solver 100 1
    | DistanceOptimized => setWeights solver 1 100
    | Balance => solver
    end in
  solve solver' g'.

End Solve.

(* ================================================================== *)
(** * The form that feeds the worker (App.tsx) *)
(* ================================================================== *)

Module Form.

(** What a validator returns: [Promise.resolve ()] or
    [Promise.reject (reason)]. *)
Inductive Validation : Type :=
| Resolved
| Rejected (reason : string).

(** The number that a coordinate input reports: the number typed in, with
    the sign of the hemisphere, or NaN once the input has been cleared
    ([val ?? NaN]). *)
Inductive Number : Type :=
| Finite (x : R)
| NaN.

(** A coordinate as the form holds it. *)
Record Coord : Type := mkCoord { longitude : Number; latitude : Number }.

(** radash's [isEmpty] on a number.  For a number other than NaN it is
    [if (isNumber(value)) return value === 0].  NaN is no number for
    [isNumber] ([Number(value) === value] is false), so [isEmpty] falls
    through to its last line, [Object.keys(value).length === 0], which
    holds: NaN is empty. *)
Definition isEmptyNumber (value : Number) : bool :=
  match value with
  | Finite x => if Req_dec_T x 0 then true else false
  | NaN => true
  end.

(** radash's [isEmpty] on an array or [undefined]: [undefined] is empty, an
    array is empty when its [length] is 0. *)
Definition isEmptyArray {T : Type} (value : option (list T)) : bool :=
  match value with
  | None => true
  | Some l => Nat.eqb (length l) 0
  end.

(** The validator of [warehouseRules]; the field is [undefined] until the
    coordinate input reports a value. *)
Definition warehouseValidator (value : option Coord) : Validation :=
  match value with
  | None => Rejected "Please input your warehouse position!"
  | Some v =>
      if isEmptyNumber (longitude v) then Rejected "Please input a longitude!"
      else if isEmptyNumber (latitude v) then Rejected "Please input a latitude!"
      else Resolved
  end.

(** The validator of [stopsRules]. *)
Definition stopsValidator (value : option (list Coord)) : Validation :=
  if isEmptyArray value then Rejected "Please add your stops!"
  else
    match value with
    | None => Resolved
    | Some l =>
        if existsb (fun stop => isEmptyNumber (longitude stop)
                                || isEmptyNumber (latitude stop)) l
        then Rejected "Stop location cannot be empty!"
        else Resolved
    end.

(** The coordinate that [addStop] appends. *)
Definition newStop : Coord := mkCoord (Finite 0) (Finite 0).

End Form.

(* ================================================================== *)
(** * The route distance on doubles *)
(* ================================================================== *)

(** [haversineDistance] and [getRouteDistance] once more, on binary64
    numbers: [+], [-], [*], [/] and [Math.sqrt] are the IEEE 754 operations,
    each rounded to the nearest double.  The language leaves the values of
    [Math.sin], [Math.cos] and [Math.atan2] to the engine; they are modelled
    where their double is beyond doubt, and are [None] everywhere else:
    - [Math.sin (x)] is [x] when [|x| < 2^-27] (the sine is nearer to [x]
      than to any other double, and the fdlibm kernel returns [x]);
    - [Math.cos (x)] is [1] when [|x| < 2^-27];
    - [Math.atan2 (y, 1)] is [Math.atan (y)], which is [y] when
      [|y| < 2^-29].
    This covers coordinates that lie a fraction of a millimetre apart next
    to the equator, which is enough to follow the rounding of the sum in
    [getRouteDistance]. *)
Module Doubles.
Import PrimFloat.
#[local] Open Scope float_scope.

Record Coord : Type := mkCoord { longitude : float; latitude : float }.

Definition Math_PI : float := 0x1.921fb54442d18p+1.

Definition Math_sin (x : float) : option float :=
  if abs x <? 0x1p-27 then Some x else None.

Definition Math_cos (x : float) : option float :=
  if abs x <? 0x1p-27 then Some 1 else None.

Definition Math_atan2 (y x : float) : option float :=
  if (x =? 1) && (abs y <? 0x1p-29) then Some y else None.

Definition toRadians (degrees : float) : float := degrees * Math_PI / 180.

Definition haversineDistance (coord1 coord2 : Coord) : option float :=
  let lon1 := longitude coord1 in
  let lat1 := latitude coord1 in
  let lon2 := longitude coord2 in
  let lat2 := latitude coord2 in
  let R_ := 6371 in
  let lat1Rad := toRadians lat1 in
  let lat2Rad := toRadians lat2 in
  let deltaLatRad := toRadians (lat2 - lat1) in
  let deltaLonRad := toRadians (lon2 - lon1) in
  bind (Math_sin (deltaLatRad / 2)) (fun sinLat =>
  bind (Math_cos lat1Rad) (fun cosLat1 =>
  bind (Math_cos lat2Rad) (fun cosLat2 =>
  bind (Math_sin (deltaLonRad / 2)) (fun sinLon =>
  let a := sinLat * sinLat + cosLat1 * cosLat2 * sinLon * sinLon in
  bind (Math_atan2 (sqrt a) (sqrt (1 - a))) (fun angle =>
  let c := 2 * angle in
  Some (R_ * c)))))).

(** The loop of [getRouteDistance]: [distance += ...], from left to right.
    An index out of range makes [haversineDistance] throw. *)
Fixpoint routeLoop (coords : list Coord) (fullRoute : list nat) (distance : float)
  : option float :=
  match fullRoute with
  | i :: ((j :: _) as rest) =>
      bind (nth_error coords i) (fun c1 =>
      bind (nth_error coords j) (fun c2 =>
      bind (haversineDistance c1 c2) (fun leg =>
      routeLoop coords rest (distance + leg))))
  | _ => Some distance
  end.

Definition getRouteDistance (coords : list Coord) (route : list nat) : option float :=
  let fullRoute := 0%nat :: route ++ [0%nat] in
  routeLoop coords fullRoute 0.

(** A depot and two stops on one parallel, at longitudes [2^-30], [3 * 2^-30]
    and [7 * 2^-30] degrees (9.313225746154785e-10, 2.7939677238464355e-09
    and 6.51925802230835e-09), all at latitude [2^-30] degrees. *)
Definition nearbyCoords : list Coord :=
  [mkCoord 0x1p-30 0x1p-30; mkCoord 0x3p-30 0x1p-30; mkCoord 0x7p-30 0x1p-30].

(** 1.2427001444014765e-06 and 1.2427001444014768e-06. *)
Definition distanceThere : float := 0x1.4d95b423427f1p-20.
Definition distanceBack : float := 0x1.4d95b423427f2p-20.

End Doubles.

(* ================================================================== *)
(** * The specification's vocabulary *)
(* ================================================================== *)

Module Spec.

(** The mathematical remainder of [x] modulo [m]. *)
Definition modulo (x m : R) : R := x - m * IZR (Zfloor (x / m)).

(** [routeTime (d) = 24 * floor (d / 50 / 8) + (d / 50 mod 8)]. *)
Definition routeTime (d : R) : R :=
  24 * IZR (Zfloor (d / 50 / 8)) + modulo (d / 50) 8.

(** The weighted average of the cost model. *)
Definition score (totalTime totalDistance weightTime weightDistance : R) : R :=
  (weightTime * totalTime + weightDistance * totalDistance)
  / (weightTime + weightDistance).

Definition sum (l : list R) : R := fold_right Rplus 0 l.

(** The maximum of a non-empty collection; there is none when it is
    empty. *)
Definition maximum (l : list R) : option R :=
  match l with
  | [] => None
  | x :: xs => Some (fold_right Rmax x xs)
  end.

(** Splitting on zero markers, left to right; [run] is the run being
    read. *)
Fixpoint runs (l : list nat) (run : list nat) : list (list nat) :=
  match l with
  | [] => [run]
  | O :: l' => run :: runs l' []
  | x :: l' => runs l' (run ++ [x])
  end.

(** Decoding: the runs of length [> 0]. *)
Definition decode (individual : list nat) : list (list nat) :=
  filter (fun run => (0 <? length run)%nat) (runs individual []).

(** The stop indices [1 .. N]. *)
Definition stopIndices (N : nat) : list nat := seq 1 N.

(** The length of the closed path through a list of coordinates. *)
Fixpoint pathLength (dist : Coord -> Coord -> R) (cs : list Coord) : R :=
  match cs with
  | c1 :: ((c2 :: _) as rest) => dist c1 c2 + pathLength dist rest
  | _ => 0
  end.

(** The pairs ["latitude,longitude"] in sequence order, separated by
    ["/"]. *)
Fixpoint urlPath (text : Coord -> string) (cs : list Coord) : string :=
  match cs with
  | [] => ""
  | [c] => text c
  | c :: rest => (text c ++ "/" ++ urlPath text rest)%string
  end.

End Spec.

(* ================================================================== *)
(** * Vocabulary of the properties *)
(* ================================================================== *)

Definition nonEmpty (run : list nat) : bool := (0 <? length run)%nat.

Definition isStop (x : nat) : bool := negb (Nat.eqb x 0).

(** Every entry of the individual is an index of the coordinate table. *)
Definition inRange (s : VRPSolver) (ind : Individual) : Prop :=
  Forall (fun i => (i < length (coords s))%nat) ind.

(** What the constructor establishes and every generation keeps. *)
Record wellFormed (s : VRPSolver) : Prop := mkWellFormed {
  wf_coords : exists depot, coords s = depot :: stops s;
  wf_size : length (population s) = individualNum s;
  wf_individualNum : (0 < individualNum s)%nat;
  wf_selectedNum : (selectedNum s <= individualNum s)%nat;
  wf_individuals :
    Forall (fun ind => Permutation ind (baseIndividual s)) (population s)
}.

(** [s'] is [s] with another population. *)
Definition sameConfig (s s' : VRPSolver) : Prop :=
  s' = set_population s (population s').

(** The solver that [generate] runs: the constructor, then the weights of
    the chosen mode. *)
Definition initialSolver (warehouse : Coord) (stops0 : list Coord)
  (wT wD : R) (g : Rng) : VRPSolver :=
  setWeights (fst (new_VRPSolver warehouse stops0 g)) wT wD.

Definition initialRng (warehouse : Coord) (stops0 : list Coord) (g : Rng) : Rng :=
  snd (new_VRPSolver warehouse stops0 g).

(** The weights that [generate] sets for a mode; the balanced mode keeps
    the initial weights. *)
Definition modeWeights (m : PlanMode) : R * R :=
  match m with
  | TimeOptimized => (100, 1)
  | DistanceOptimized => (1, 100)
  | Balance => (1, 1)
  end.


(** The cost that the fitness negates. *)
Definition costOf (s : VRPSolver) (r : FitnessResult) : R :=
  Spec.score (toNumber (fit_totalTime r)) (fit_totalDistance r)
    (weightTime s) (weightDistance s).

(** What one entry of the reported routes holds; [text] renders a
    coordinate as its [latitude,longitude] pair. *)
Definition reports (text : Coord -> string) (s : VRPSolver)
  (route : list nat) (vr : VRPRoute) : Prop :=
  indices vr = 0%nat :: route ++ [0%nat]
  /\ mapM (nth_error (coords s)) (indices vr) = Some (paths vr)
  /\ getRouteDistance s route = Some (distance vr)
  /\ driveTime vr = distance vr / 50
  /\ time vr = getRouteTime (distance vr)
  /\ googleMapUrl vr = (MAP_BASE_URL ++ Spec.urlPath text (paths vr))%string.

(** ** Concrete inputs *)

(** A solver with one stop, and an individual of it. *)
Definition exampleDepot : Coord := mkCoord 0 0.
Definition exampleStop : Coord := mkCoord 0 1.
Definition exampleSolver : VRPSolver :=
  mkVRPSolver 1 1 10 [exampleDepot; exampleStop] [exampleStop] [] 100 50 200.
Definition exampleIndividual : Individual := [0; 1; 0]%nat.

(** Ninety-two stops, and a random source whose draws grow with their rank
    except the 92nd, the largest of the first shuffle: that shuffle moves
    stop 92 behind the nine markers. *)
Definition manyStops : list Coord := repeat exampleStop 92.

Definition lateDraw : Rng :=
  mkRng (fun i => if Nat.eqb i 91 then 1000%N else N.of_nat i) 0.

Definition strandedIndividual : Individual :=
  seq 1 91 ++ repeat 0%nat 9 ++ [92%nat].

(** ** Vocabulary of the further properties *)

(** Reading a list left to right: the runs closed by a marker so far, and
    the run still open. *)
Fixpoint scanRuns (l : list nat) (closed : list (list nat)) (open : list nat)
  : list (list nat) * list nat :=
  match l with
  | [] => (closed, open)
  | O :: l' => scanRuns l' (closed ++ [open]) []
  | x :: l' => scanRuns l' closed (open ++ [x])
  end.

(** The number of zero markers of a list. *)
Definition markers (l : list nat) : nat := count_occ Nat.eq_dec l 0%nat.

(** Routes written one after the other with a marker between two of them. *)
Fixpoint joinRoutes (rs : list (list nat)) : list nat :=
  match rs with
  | [] => []
  | [r] => r
  | r :: rest => r ++ 0%nat :: joinRoutes rest
  end.

(** A route as the encoding takes it: at least one stop, no marker. *)
Definition properRoute (r : list nat) : Prop := r <> [] /\ ~ In 0%nat r.



(** The legs of a path: the distances between consecutive coordinates, in the
    order in which the loop of [getRouteDistance] adds them. *)
Fixpoint legs (cs : list Coord) : list R :=
  match cs with
  | a :: ((b :: _) as rest) => getDistanceBetweenCoords a b :: legs rest
  | _ => []
  end.

(** The coordinates of the closed loop of a route: depot, stops, depot. *)
Definition closedLoop (s : VRPSolver) (route : list nat) : option (list Coord) :=
  mapM (nth_error (coords s)) (0%nat :: route ++ [0%nat]).

(** A number of the form that [isEmpty] does not take for empty. *)
Definition filled (n : Form.Number) : Prop :=
  match n with
  | Form.Finite x => x <> 0
  | Form.NaN => False
  end.

Definition filledCoord (c : Form.Coord) : Prop :=
  filled (Form.longitude c) /\ filled (Form.latitude c).

(** The values of the form as the worker's model receives them: numbers
    only.  A form that holds a NaN has no counterpart. *)
Definition toReal (n : Form.Number) : option R :=
  match n with
  | Form.Finite x => Some x
  | Form.NaN => None
  end.

Definition posted (c : Form.Coord) : option Coord :=
  bind (toReal (Form.longitude c)) (fun lon =>
  bind (toReal (Form.latitude c)) (fun lat =>
  Some (mkCoord lon lat))).

Definition postedInput (warehouse0 : Form.Coord) (stops0 : list Form.Coord)
  (mode0 : PlanMode) : option PlanInput :=
  bind (posted warehouse0) (fun w =>
  bind (mapM posted stops0) (fun l =>
  Some (mkPlanInput w l mode0))).

(* ================================================================== *)
(** * The embedding on small inputs *)
(* ================================================================== *)

Example range_stops : Radash.range 1 3 (fun i => i) = [1; 2; 3]%nat.
Proof. reflexivity. Qed.

Example range_markers : Radash.range 1 9 (fun _ => 0%nat) = repeat 0%nat 9.
Proof. reflexivity. Qed.

Example range_no_stops : Radash.range 1 0 (fun i => i) = [0%nat].
Proof. reflexivity. Qed.

Example slice_middle : slice [1; 2; 3; 4; 5]%nat 1 3 = [2; 3]%nat.
Proof. reflexivity. Qed.

Example slice_from_end : slice [1; 2; 3; 4; 5]%nat (-2) 5 = [4; 5]%nat.
Proof. reflexivity. Qed.

Example shuffle_by_tags :
  fst (Radash.shuffle [1; 2; 3]%nat
         (mkRng (fun i => match i with O => 5%N | S O => 3%N | _ => 4%N end) 0))
  = [2; 3; 1]%nat.
Proof. vm_compute. reflexivity. Qed.

Example draw_middle :
  fst (Radash.draw [10; 20; 30; 40]%nat (mkRng (fun _ => 2 ^ 52)%N 0)) = Some 30%nat.
Proof. vm_compute. reflexivity. Qed.

(** The draw 6034823500676464 / 2^53 times 100 is just below 67 and is
    rounded to 67: the index is 67, where the floor of the exact product
    is 66. *)
Example random_rounds_the_product :
  fst (Radash.random 0 99 (mkRng (fun _ => 6034823500676464%N) 0)) = 67%nat
  /\ (6034823500676464 * 100 / RANDOM_DENOMINATOR = 66)%N.
Proof. split; vm_compute; reflexivity. Qed.

Example decode_two_routes :
  decode exampleSolver [1; 2; 0; 0; 3]%nat = [[1; 2]; [3]]%nat.
Proof. vm_compute. reflexivity. Qed.

Example decode_markers_at_both_ends :
  decode exampleSolver [0; 1; 0]%nat = [[1%nat]].
Proof. vm_compute. reflexivity. Qed.

Example spec_decode_two_routes :
  Spec.decode [1; 2; 0; 0; 3]%nat = [[1; 2]; [3]]%nat.
Proof. reflexivity. Qed.

(* ================================================================== *)
(** * Cost model *)
(* ================================================================== *)

Lemma trunc_nonneg (x : R) : 0 <= x -> trunc x = Zfloor x.
Proof.
  intros Hx. unfold trunc. destruct (Rle_dec 0 x) as [_ | Hn]; [reflexivity | contradiction].
Qed.

Lemma getRouteTime_unfold (d : R) :
  getRouteTime d =
  IZR (Zfloor (d / 50 / 8)) * 24 + (d / 50 - 8 * IZR (trunc (d / 50 / 8))).
Proof. reflexivity. Qed.

Lemma getRouteTime_nonneg (d : R) : 0 <= d -> getRouteTime d = Spec.routeTime d.
Proof.
  intros Hd.
  assert (Hq : 0 <= d / 50 / 8) by (unfold Rdiv; nra).
  rewrite getRouteTime_unfold, (trunc_nonneg _ Hq).
  unfold Spec.routeTime, Spec.modulo. ring.
Qed.

(** C3. For every distance [d >= 0], at 50 km/h, the elapsed time of
    [getRouteTime] is [24 * floor (d / 50 / 8) + (d / 50 mod 8)]; at
    exactly 400 km it is 24 hours. *)
Theorem getRouteTime_formula (d : R) :
  0 <= d ->
  getRouteTime d = Spec.routeTime d /\ (d = 400 -> getRouteTime d = 24).
Proof.
  intros Hd.
  pose proof (getRouteTime_nonneg d Hd) as E.
  split; [exact E | ].
  intros ->. rewrite E. unfold Spec.routeTime, Spec.modulo.
  replace (400 / 50 / 8) with (IZR 1) by (simpl; field).
  rewrite ZfloorZ. simpl. field.
Qed.

Lemma getRouteTime_formula_witness :
  0 <= 400 /\ getRouteTime 400 = 24.
Proof.
  split; [lra | ].
  apply (getRouteTime_formula 400); [lra | reflexivity].
Defined.

(** Nine hours of driving: one full day and one more hour. *)
Example getRouteTime_450 : getRouteTime 450 = 25.
Proof.
  rewrite getRouteTime_nonneg by lra. unfold Spec.routeTime, Spec.modulo.
  rewrite (Zfloor_eq 1) by (simpl; lra). simpl. field.
Qed.

(* ================================================================== *)
(** * Geometry *)
(* ================================================================== *)

Lemma sin_sqr_neg (x : R) : sin (- x) * sin (- x) = sin x * sin x.
Proof. rewrite sin_neg. ring. Qed.

Lemma toRadians_half_swap (x y : R) :
  toRadians (x - y) / 2 = - (toRadians (y - x) / 2).
Proof. unfold toRadians. field. Qed.

Lemma haversineDistance_sym (a b : Coord) :
  haversineDistance a b = haversineDistance b a.
Proof.
  unfold haversineDistance.
  rewrite (toRadians_half_swap (latitude b) (latitude a)).
  rewrite (toRadians_half_swap (longitude b) (longitude a)).
  rewrite !sin_neg.
  set (u := sin (toRadians (latitude a - latitude b) / 2)).
  set (v := sin (toRadians (longitude a - longitude b) / 2)).
  set (p := cos (toRadians (latitude a))).
  set (q := cos (toRadians (latitude b))).
  replace (- u * - u + p * q * - v * - v) with (u * u + q * p * v * v) by ring.
  reflexivity.
Qed.

Lemma Math_atan2_0_1 : Math_atan2 0 1 = 0.
Proof.
  unfold Math_atan2. destruct (Rlt_dec 0 1) as [_ | H]; [ | exfalso; lra].
  replace (0 / 1) with 0 by field. exact atan_0.
Qed.

Lemma haversineDistance_refl (a : Coord) : haversineDistance a a = 0.
Proof.
  unfold haversineDistance, toRadians.
  replace ((latitude a - latitude a) * PI / 180 / 2) with 0 by field.
  replace ((longitude a - longitude a) * PI / 180 / 2) with 0 by field.
  rewrite sin_0.
  replace (0 * 0 + cos (latitude a * PI / 180) * cos (latitude a * PI / 180) * 0 * 0)
    with 0 by ring.
  rewrite Rminus_0_r, sqrt_0, sqrt_1, Math_atan2_0_1. ring.
Qed.

(** ** Route distance *)

Lemma mapM_app {A B : Type} (f : A -> option B) (l1 l2 : list A) :
  mapM f (l1 ++ l2) =
  bind (mapM f l1) (fun r1 => bind (mapM f l2) (fun r2 => Some (r1 ++ r2))).
Proof.
  induction l1 as [ | x l1 IH]; simpl.
  - destruct (mapM f l2); reflexivity.
  - destruct (f x) as [y | ]; simpl; [ | reflexivity].
    rewrite IH. destruct (mapM f l1) as [r1 | ]; simpl; [ | reflexivity].
    destruct (mapM f l2); reflexivity.
Qed.

Lemma mapM_rev {A B : Type} (f : A -> option B) (l : list A) :
  mapM f (rev l) = option_map (@rev B) (mapM f l).
Proof.
  induction l as [ | x l IH]; simpl; [reflexivity | ].
  rewrite mapM_app, IH. simpl.
  destruct (mapM f l) as [r | ]; simpl.
  - destruct (f x); reflexivity.
  - destruct (f x); reflexivity.
Qed.

Lemma mapM_length {A B : Type} (f : A -> option B) (l : list A) (r : list B) :
  mapM f l = Some r -> length r = length l.
Proof.
  revert r. induction l as [ | x l IH]; simpl; intros r H.
  - injection H as <-. reflexivity.
  - destruct (f x) as [y | ]; simpl in H; [ | discriminate].
    destruct (mapM f l) as [ys | ]; simpl in H; [ | discriminate].
    injection H as <-. simpl. f_equal. apply IH. reflexivity.
Qed.

Lemma mapM_Forall2 {A B : Type} (f : A -> option B) (l : list A) (r : list B) :
  mapM f l = Some r -> Forall2 (fun a b => f a = Some b) l r.
Proof.
  revert r. induction l as [ | x l IH]; simpl; intros r H.
  - injection H as <-. constructor.
  - destruct (f x) as [y | ] eqn:E; simpl in H; [ | discriminate].
    destruct (mapM f l) as [ys | ]; simpl in H; [ | discriminate].
    injection H as <-. constructor; [exact E | apply IH; reflexivity].
Qed.

Lemma mapM_total {A B : Type} (f : A -> option B) (l : list A) :
  Forall (fun a => exists b, f a = Some b) l -> exists r, mapM f l = Some r.
Proof.
  induction 1 as [ | x l [y Hy] _ [ys IH]]; simpl.
  - eexists; reflexivity.
  - rewrite Hy, IH. simpl. eexists; reflexivity.
Qed.

Lemma routeLoop_cons2 (cs : list Coord) (i j : nat) (l : list nat) (acc : R) :
  routeLoop cs (i :: j :: l) acc =
  bind (nth_error cs i) (fun c1 =>
  bind (nth_error cs j) (fun c2 =>
  routeLoop cs (j :: l) (acc + getDistanceBetweenCoords c1 c2))).
Proof. reflexivity. Qed.

Lemma mapM_cons {A B : Type} (f : A -> option B) (x : A) (l : list A) :
  mapM f (x :: l) =
  bind (f x) (fun y => bind (mapM f l) (fun ys => Some (y :: ys))).
Proof. reflexivity. Qed.

Lemma pathLength_cons2 (dist : Coord -> Coord -> R) (c1 c2 : Coord) (l : list Coord) :
  Spec.pathLength dist (c1 :: c2 :: l) = dist c1 c2 + Spec.pathLength dist (c2 :: l).
Proof. reflexivity. Qed.

(** On a route of at least two entries the loop looks every entry up and
    adds the legs from left to right. *)
Lemma routeLoop_pathLength (cs : list Coord) (l : list nat) :
  forall (i : nat) (acc : R),
    l <> [] ->
    routeLoop cs (i :: l) acc =
    bind (nth_error cs i) (fun c1 =>
    bind (mapM (nth_error cs) l) (fun rest =>
    Some (acc + Spec.pathLength getDistanceBetweenCoords (c1 :: rest)))).
Proof.
  induction l as [ | j l IH]; intros i acc Hne; [contradiction | ].
  rewrite routeLoop_cons2, mapM_cons.
  destruct (nth_error cs i) as [c1 | ]; cbn [bind]; [ | reflexivity].
  destruct (nth_error cs j) as [c2 | ] eqn:Ej; cbn [bind]; [ | reflexivity].
  destruct l as [ | k l].
  - cbn. f_equal. ring.
  - rewrite IH by discriminate. rewrite Ej. cbn [bind].
    destruct (mapM (nth_error cs) (k :: l)) as [rest | ]; cbn [bind]; [ | reflexivity].
    rewrite pathLength_cons2. f_equal. ring.
Qed.

Lemma getRouteDistance_pathLength (s : VRPSolver) (route : list nat) :
  getRouteDistance s route =
  bind (mapM (nth_error (coords s)) (0%nat :: route ++ [0%nat])) (fun cs =>
  Some (Spec.pathLength getDistanceBetweenCoords cs)).
Proof.
  unfold getRouteDistance. rewrite routeLoop_pathLength, mapM_cons.
  - destruct (nth_error (coords s) 0) as [c | ]; cbn [bind]; [ | reflexivity].
    destruct (mapM (nth_error (coords s)) (route ++ [0%nat])); cbn [bind];
      [ | reflexivity].
    f_equal. ring.
  - destruct route; discriminate.
Qed.

Section PathLength.

Variable dist : Coord -> Coord -> R.
Hypothesis dist_sym : forall a b, dist a b = dist b a.

Lemma pathLength_snoc (l : list Coord) (c d : Coord) :
  Spec.pathLength dist (l ++ [c; d]) =
  Spec.pathLength dist (l ++ [c]) + dist c d.
Proof.
  induction l as [ | x l IH].
  - simpl. ring.
  - destruct l as [ | y l].
    + simpl. ring.
    + change (Spec.pathLength dist ((x :: y :: l) ++ [c; d]))
        with (dist x y + Spec.pathLength dist ((y :: l) ++ [c; d])).
      change (Spec.pathLength dist ((x :: y :: l) ++ [c]))
        with (dist x y + Spec.pathLength dist ((y :: l) ++ [c])).
      rewrite IH. ring.
Qed.

Lemma pathLength_rev (l : list Coord) :
  Spec.pathLength dist (rev l) = Spec.pathLength dist l.
Proof.
  destruct l as [ | c l]; [reflexivity | ].
  revert c. induction l as [ | d l IH]; intros c; [reflexivity | ].
  change (rev (c :: d :: l)) with ((rev l ++ [d]) ++ [c]).
  rewrite <- app_assoc. simpl app at 2.
  rewrite pathLength_snoc.
  change (rev l ++ [d]) with (rev (d :: l)). rewrite IH.
  simpl. rewrite (dist_sym d c). ring.
Qed.

End PathLength.

(** The loop adds the legs of the path from left to right. *)
Lemma routeLoop_legs (cs : list Coord) (l : list nat) :
  forall (i : nat) (acc : R),
    l <> [] ->
    routeLoop cs (i :: l) acc =
    bind (mapM (nth_error cs) (i :: l)) (fun path =>
    Some (fold_left Rplus (legs path) acc)).
Proof.
  induction l as [ | j l IH]; intros i acc Hne; [contradiction | ].
  rewrite routeLoop_cons2, (mapM_cons _ i).
  destruct (nth_error cs i) as [c1 | ]; cbn [bind]; [ | reflexivity].
  destruct l as [ | k l].
  - cbn [mapM bind routeLoop].
    destruct (nth_error cs j) as [c2 | ]; cbn [bind]; reflexivity.
  - destruct (nth_error cs j) as [c2 | ] eqn:Ej; cbn [bind].
    + rewrite IH by discriminate. rewrite (mapM_cons _ j), Ej. cbn [bind].
      destruct (mapM (nth_error cs) (k :: l)) as [rest | ]; cbn [bind]; reflexivity.
    + rewrite (mapM_cons _ j), Ej. reflexivity.
Qed.

Lemma getRouteDistance_legs (s : VRPSolver) (route : list nat) :
  getRouteDistance s route =
  option_map (fun path => fold_left Rplus (legs path) 0) (closedLoop s route).
Proof.
  unfold getRouteDistance, closedLoop. rewrite routeLoop_legs.
  - destruct (mapM (nth_error (coords s)) (0%nat :: route ++ [0%nat])); reflexivity.
  - destruct route; discriminate.
Qed.

Lemma legs_snoc (l : list Coord) (c d : Coord) :
  legs (l ++ [c; d]) = legs (l ++ [c]) ++ [getDistanceBetweenCoords c d].
Proof.
  induction l as [ | x l IH]; [reflexivity | ].
  destruct l as [ | y l]; [reflexivity | ].
  change (legs ((x :: y :: l) ++ [c; d]))
    with (getDistanceBetweenCoords x y :: legs ((y :: l) ++ [c; d])).
  change (legs ((x :: y :: l) ++ [c]))
    with (getDistanceBetweenCoords x y :: legs ((y :: l) ++ [c])).
  rewrite IH. reflexivity.
Qed.

(** The mirror of a path has the same legs, in the opposite order. *)
Lemma legs_rev (l : list Coord) : legs (rev l) = rev (legs l).
Proof.
  destruct l as [ | c l]; [reflexivity | ].
  revert c. induction l as [ | d l IH]; intros c; [reflexivity | ].
  change (rev (c :: d :: l)) with ((rev l ++ [d]) ++ [c]).
  rewrite <- app_assoc. simpl app at 2. rewrite legs_snoc.
  change (rev l ++ [d]) with (rev (d :: l)). rewrite IH.
  change (legs (c :: d :: l)) with (getDistanceBetweenCoords c d :: legs (d :: l)).
  simpl rev at 2. unfold getDistanceBetweenCoords at 1.
  rewrite (haversineDistance_sym d c). reflexivity.
Qed.

Lemma closedLoop_rev (s : VRPSolver) (route : list nat) :
  closedLoop s (rev route) = option_map (@rev Coord) (closedLoop s route).
Proof.
  unfold closedLoop.
  replace (0%nat :: rev route ++ [0%nat]) with (rev (0%nat :: route ++ [0%nat])).
  - apply mapM_rev.
  - simpl. rewrite rev_app_distr. reflexivity.
Qed.

(** C9.  The great-circle distance is symmetric and vanishes between
    a coordinate and itself.  The distance of a route is the sum, taken from
    left to right, of the legs of its closed loop; the distance of the
    mirrored route is the sum, from left to right, of the same legs in the
    opposite order.  In exact arithmetic the two sums are equal. *)
Theorem haversine_symmetry_and_mirror_legs :
  (forall a b : Coord, haversineDistance a b = haversineDistance b a) /\
  (forall a : Coord, haversineDistance a a = 0) /\
  (forall (s : VRPSolver) (route : list nat),
      getRouteDistance s route
      = option_map (fun path => fold_left Rplus (legs path) 0) (closedLoop s route)
      /\ getRouteDistance s (rev route)
         = option_map (fun path => fold_left Rplus (rev (legs path)) 0)
             (closedLoop s route)
      /\ getRouteDistance s (rev route) = getRouteDistance s route).
Proof.
  split; [exact haversineDistance_sym | ].
  split; [exact haversineDistance_refl | ].
  intros s route.
  split; [apply getRouteDistance_legs | ].
  split.
  - rewrite getRouteDistance_legs, closedLoop_rev.
    destruct (closedLoop s route) as [path | ]; [ | reflexivity].
    cbn [option_map]. rewrite legs_rev. reflexivity.
  - rewrite !getRouteDistance_pathLength.
    replace (0%nat :: rev route ++ [0%nat]) with (rev (0%nat :: route ++ [0%nat])).
    + rewrite mapM_rev.
      destruct (mapM (nth_error (coords s)) (0%nat :: route ++ [0%nat])) as [cs | ];
        simpl; [ | reflexivity].
      f_equal. apply pathLength_rev. exact haversineDistance_sym.
    + simpl. rewrite rev_app_distr. reflexivity.
Qed.

(** C9, on doubles.  For the depot and the two stops of
    [Doubles.nearbyCoords] the route 1, 2 has the distance
    1.2427001444014765e-06 km and its mirror 2, 1 the distance
    1.2427001444014768e-06 km: the three legs are the same, but the sum
    from left to right rounds differently in the two orders. *)
Lemma mirror_route_distance_differs :
  Doubles.getRouteDistance Doubles.nearbyCoords [1; 2]%nat
  = Some Doubles.distanceThere
  /\ Doubles.getRouteDistance Doubles.nearbyCoords (rev [1; 2]%nat)
     = Some Doubles.distanceBack
  /\ PrimFloat.eqb Doubles.distanceThere Doubles.distanceBack = false
  /\ ~ (Doubles.getRouteDistance Doubles.nearbyCoords (rev [1; 2]%nat)
        = Doubles.getRouteDistance Doubles.nearbyCoords [1; 2]%nat).
Proof.
  assert (H1 : Doubles.getRouteDistance Doubles.nearbyCoords [1; 2]%nat
               = Some Doubles.distanceThere) by (vm_compute; reflexivity).
  assert (H2 : Doubles.getRouteDistance Doubles.nearbyCoords (rev [1; 2]%nat)
               = Some Doubles.distanceBack) by (vm_compute; reflexivity).
  assert (H3 : PrimFloat.eqb Doubles.distanceThere Doubles.distanceBack = false)
    by (vm_compute; reflexivity).
  split; [exact H1 | ]. split; [exact H2 | ]. split; [exact H3 | ].
  rewrite H1, H2. intros E.
  assert (E' : Doubles.distanceBack = Doubles.distanceThere).
  { exact (f_equal (fun o => match o with
                             | Some d => d
                             | None => Doubles.distanceThere
                             end) E). }
  rewrite E' in H3. vm_compute in H3. discriminate.
Qed.

(* ================================================================== *)
(** * Decoding *)
(* ================================================================== *)

Lemma slice_prefix {T : Type} (pre suf : list T) (p : nat) :
  (p <= length pre)%nat ->
  slice (pre ++ suf) (Z.of_nat p) (Z.of_nat (length pre)) = skipn p pre.
Proof.
  intros Hp. unfold slice, relIndex. rewrite length_app.
  destruct (Z.of_nat p <? 0)%Z eqn:E1; [apply Z.ltb_lt in E1; lia | ].
  destruct (Z.of_nat (length pre) <? 0)%Z eqn:E2; [apply Z.ltb_lt in E2; lia | ].
  rewrite !Z.min_l by lia. rewrite Nat2Z.id.
  replace (Z.to_nat (Z.of_nat (length pre) - Z.of_nat p)) with (length pre - p)%nat by lia.
  rewrite skipn_app. replace (p - length pre)%nat with 0%nat by lia. simpl skipn at 2.
  rewrite firstn_app, length_skipn.
  replace (length pre - p - (length pre - p))%nat with 0%nat by lia.
  rewrite firstn_O, app_nil_r. apply firstn_all2. rewrite length_skipn. lia.
Qed.

Lemma sliceFrom_skipn {T : Type} (l : list T) (p : nat) :
  (p <= length l)%nat -> sliceFrom l (Z.of_nat p) = skipn p l.
Proof.
  intros Hp. unfold sliceFrom.
  rewrite <- (app_nil_r l) at 1. rewrite <- (app_nil_r l) at 2.
  rewrite app_nil_r at 2. rewrite slice_prefix by exact Hp. reflexivity.
Qed.

Lemma In_firstn {T : Type} (n : nat) (l : list T) (x : T) :
  In x (firstn n l) -> In x l.
Proof.
  intros H. rewrite <- (firstn_skipn n l). apply in_or_app. left. exact H.
Qed.

Lemma In_skipn {T : Type} (n : nat) (l : list T) (x : T) :
  In x (skipn n l) -> In x l.
Proof.
  intros H. rewrite <- (firstn_skipn n l). apply in_or_app. right. exact H.
Qed.

Lemma In_slice {T : Type} (l : list T) (a b : Z) (x : T) :
  In x (slice l a b) -> In x l.
Proof.
  unfold slice. intros H. apply In_firstn in H. apply In_skipn in H. exact H.
Qed.

Lemma decodeStep_out_of_range (l : Individual) (st : list (list nat) * Z) (i : nat) :
  (length l <= i)%nat -> decodeStep l st i = st.
Proof.
  intros Hi. unfold decodeStep. destruct st as [routes w].
  apply nth_error_None in Hi. rewrite Hi. reflexivity.
Qed.

Lemma decode_loop_out_of_range (l : Individual) (k : nat) :
  forall (i : nat) (st : list (list nat) * Z),
    (length l <= i)%nat -> fold_left (decodeStep l) (seq i k) st = st.
Proof.
  induction k as [ | k IH]; intros i st Hi; simpl; [reflexivity | ].
  rewrite decodeStep_out_of_range by exact Hi. apply IH. lia.
Qed.

Lemma decodeStep_marker (l : Individual) (routes : list (list nat)) (w : Z) (i : nat) :
  nth_error l i = Some 0%nat ->
  decodeStep l (routes, w) i =
  ((if (0 <? length (slice l (w + 1) (Z.of_nat i)))%nat
    then routes ++ [slice l (w + 1) (Z.of_nat i)] else routes), Z.of_nat i).
Proof. intros H. unfold decodeStep. rewrite H. reflexivity. Qed.

Lemma decodeStep_stop (l : Individual) (st : list (list nat) * Z) (i x : nat) :
  nth_error l i = Some (S x) -> decodeStep l st i = st.
Proof. intros H. unfold decodeStep. destruct st. rewrite H. reflexivity. Qed.

(** The loop over the indices of the individual itself reads off the runs
    between markers. *)
Lemma decode_loop_runs (l : Individual) (suf : list nat) :
  forall (pre : list nat) (routes : list (list nat)) (p : nat),
    l = pre ++ suf ->
    (p <= length pre)%nat ->
    exists routes' p',
      fold_left (decodeStep l) (seq (length pre) (length suf))
        (routes, (Z.of_nat p - 1)%Z) = (routes', (Z.of_nat p' - 1)%Z)
      /\ (p' <= length l)%nat
      /\ routes' ++ filter nonEmpty [skipn p' l]
         = routes ++ filter nonEmpty (Spec.runs suf (skipn p pre)).
Proof.
  induction suf as [ | x suf IH]; intros pre routes p Hl Hp.
  - exists routes, p. rewrite app_nil_r in Hl. subst l. simpl.
    repeat split; [exact Hp].
  - assert (Hnth : nth_error l (length pre) = Some x).
    { subst l. rewrite nth_error_app2 by lia. rewrite Nat.sub_diag. reflexivity. }
    assert (Hl' : l = (pre ++ [x]) ++ suf) by (rewrite <- app_assoc; exact Hl).
    cbn [length seq fold_left].
    replace (S (length pre)) with (length (pre ++ [x]))
      by (rewrite length_app; simpl; lia).
    destruct x as [ | x'].
    + (* a marker closes the run *)
      rewrite (decodeStep_marker _ _ _ _ Hnth).
      replace (Z.of_nat p - 1 + 1)%Z with (Z.of_nat p) by lia.
      replace (slice l (Z.of_nat p) (Z.of_nat (length pre))) with (skipn p pre)
        by (rewrite Hl; symmetry; apply slice_prefix; exact Hp).
      replace (Z.of_nat (length pre)) with (Z.of_nat (length (pre ++ [0%nat])) - 1)%Z
        by (rewrite length_app; simpl; lia).
      destruct (IH (pre ++ [0%nat])
                  (if (0 <? length (skipn p pre))%nat
                   then routes ++ [skipn p pre] else routes)
                  (length (pre ++ [0%nat])) Hl' (Nat.le_refl _))
        as (routes' & p' & Hfold & Hp' & Heq).
      exists routes', p'. split; [exact Hfold | ]. split; [exact Hp' | ].
      rewrite Heq. rewrite skipn_all. cbn [Spec.runs filter].
      change (nonEmpty (skipn p pre)) with (0 <? length (skipn p pre))%nat.
      destruct (0 <? length (skipn p pre))%nat; [ | reflexivity].
      rewrite <- app_assoc. reflexivity.
    + (* a stop extends the run *)
      rewrite (decodeStep_stop _ _ _ _ Hnth).
      assert (Hp2 : (p <= length (pre ++ [S x']))%nat)
        by (rewrite length_app; simpl; lia).
      destruct (IH (pre ++ [S x']) routes p Hl' Hp2)
        as (routes' & p' & Hfold & Hp' & Heq).
      exists routes', p'. split; [exact Hfold | ]. split; [exact Hp' | ].
      rewrite Heq. cbn [Spec.runs]. rewrite skipn_app.
      replace (p - length pre)%nat with 0%nat by lia. reflexivity.
Qed.

(** On an individual no longer than [individualNum], the decoding of
    [getFitness] is the splitting on zero markers with empty runs dropped. *)
Lemma decode_short (s : VRPSolver) (l : Individual) :
  (length l <= individualNum s)%nat -> decode s l = Spec.decode l.
Proof.
  intros Hlen. unfold decode.
  replace (individualNum s) with (length l + (individualNum s - length l))%nat at 1 by lia.
  rewrite seq_app, fold_left_app. simpl (0 + length l)%nat.
  rewrite decode_loop_out_of_range by lia.
  destruct (decode_loop_runs l l [] [] 0 eq_refl (Nat.le_0_l _))
    as (routes' & p' & Hfold & Hp' & Heq).
  simpl length in Hfold. simpl Z.of_nat in Hfold. simpl Z.sub in Hfold.
  rewrite Hfold. simpl in Heq. unfold Spec.decode. fold nonEmpty. rewrite <- Heq.
  replace (Z.of_nat p' - 1 + 1)%Z with (Z.of_nat p') by lia.
  rewrite sliceFrom_skipn by exact Hp'.
  destruct (Z.of_nat p' - 1 =? Z.of_nat (individualNum s) - 1)%Z eqn:E; simpl negb; cbv iota.
  - apply Z.eqb_eq in E. assert (p' = length l) by lia. subst p'.
    rewrite skipn_all. simpl. rewrite app_nil_r. reflexivity.
  - unfold nonEmpty. destruct (0 <? length (skipn p' l))%nat; [reflexivity | ].
    rewrite app_nil_r. reflexivity.
Qed.

Lemma concat_runs (l : list nat) :
  forall run : list nat,
    concat (filter nonEmpty (Spec.runs l run)) = run ++ filter isStop l.
Proof.
  assert (Hone : forall run, concat (filter nonEmpty [run]) = run).
  { intros [ | x run]; simpl; [reflexivity | rewrite app_nil_r; reflexivity]. }
  induction l as [ | x l IH]; intros run.
  - rewrite app_nil_r. apply Hone.
  - destruct x as [ | x'].
    + cbn [Spec.runs]. change (run :: Spec.runs l []) with ([run] ++ Spec.runs l []).
      rewrite filter_app, concat_app, Hone, IH. reflexivity.
    + cbn [Spec.runs]. rewrite IH, <- app_assoc. reflexivity.
Qed.

(** The routes of the specification's decoding hold the stops of the
    individual, each once, in order. *)
Lemma concat_spec_decode (l : list nat) :
  concat (Spec.decode l) = filter isStop l.
Proof. unfold Spec.decode. fold nonEmpty. rewrite concat_runs. reflexivity. Qed.

(** Whatever the length of the individual, a decoded route only holds
    entries of the individual. *)
Lemma decodeStep_incl (l : Individual) (st : list (list nat) * Z) (i : nat) :
  Forall (fun r => incl r l) (fst st) ->
  Forall (fun r => incl r l) (fst (decodeStep l st i)).
Proof.
  intros H. unfold decodeStep. destruct st as [routes w]. simpl in H.
  destruct (nth_error l i) as [[ | x] | ]; simpl; try exact H.
  destruct (0 <? length (slice l (w + 1) (Z.of_nat i)))%nat; [ | exact H].
  apply Forall_app. split; [exact H | ].
  constructor; [ | constructor]. intros x Hx. exact (In_slice _ _ _ _ Hx).
Qed.

Lemma decode_loop_incl (l : Individual) (idx : list nat) :
  forall st : list (list nat) * Z,
    Forall (fun r => incl r l) (fst st) ->
    Forall (fun r => incl r l) (fst (fold_left (decodeStep l) idx st)).
Proof.
  induction idx as [ | i idx IH]; intros st H; simpl; [exact H | ].
  apply IH. apply decodeStep_incl. exact H.
Qed.

Lemma decode_incl (s : VRPSolver) (l : Individual) :
  Forall (fun r => incl r l) (decode s l).
Proof.
  unfold decode.
  pose proof (decode_loop_incl l (seq 0 (individualNum s)) ([], (-1)%Z) (Forall_nil _)) as H.
  destruct (fold_left (decodeStep l) (seq 0 (individualNum s)) ([], (-1)%Z))
    as [routes w]. simpl in H.
  destruct (negb (w =? Z.of_nat (individualNum s) - 1)%Z); [ | exact H].
  destruct (0 <? length (sliceFrom l (w + 1)))%nat; [ | exact H].
  apply Forall_app. split; [exact H | ].
  constructor; [ | constructor]. intros x Hx. exact (In_slice _ _ _ _ Hx).
Qed.

(* ================================================================== *)
(** * Sorting and shuffling *)
(* ================================================================== *)

Section Sorting.

Context {T : Type}.
Variable le : T -> T -> bool.

Lemma insert_perm (x : T) (l : list T) : Permutation (insert le x l) (x :: l).
Proof.
  induction l as [ | y l IH]; simpl; [reflexivity | ].
  destruct (le x y); [reflexivity | ].
  rewrite IH. apply perm_swap.
Qed.

Lemma Array_sort_perm (l : list T) : Permutation (Array_sort le l) l.
Proof.
  induction l as [ | x l IH]; simpl; [reflexivity | ].
  rewrite insert_perm. constructor. exact IH.
Qed.

Variable leP : T -> T -> Prop.
Hypothesis le_true : forall a b, le a b = true -> leP a b.
Hypothesis le_false : forall a b, le a b = false -> leP b a.
Hypothesis leP_trans : forall a b c, leP a b -> leP b c -> leP a c.



End Sorting.

Lemma tag_values {T : Type} (l : list T) :
  forall g : Rng, map snd (fst (Radash.tag l g)) = l.
Proof.
  induction l as [ | a l IH]; intros g; [reflexivity | ].
  change (Radash.tag (a :: l) g)
    with (let (rand, g1) := Math_random g in
          let (tagged, g2) := Radash.tag l g1 in ((rand, a) :: tagged, g2)).
  destruct (Math_random g) as [rand g1].
  specialize (IH g1). destruct (Radash.tag l g1) as [tagged g2].
  simpl in *. f_equal. exact IH.
Qed.

(** A shuffle returns a rearrangement of its argument. *)
Lemma shuffle_perm {T : Type} (l : list T) (g : Rng) :
  Permutation (fst (Radash.shuffle l g)) l.
Proof.
  unfold Radash.shuffle. pose proof (tag_values l g) as H.
  destruct (Radash.tag l g) as [tagged g']. simpl in *.
  subst l. apply Permutation_map. apply Array_sort_perm.
Qed.

Lemma keyed_fst {T : Type} (getter : T -> option R) (l : list T) (keyed : list (T * R)) :
  mapM (fun a => bind (getter a) (fun k => Some (a, k))) l = Some keyed ->
  map fst keyed = l /\ Forall (fun ak => getter (fst ak) = Some (snd ak)) keyed.
Proof.
  revert keyed. induction l as [ | x l IH]; intros keyed H.
  - injection H as <-. split; constructor.
  - rewrite mapM_cons in H.
    destruct (getter x) as [k | ] eqn:Ek; [ | discriminate]. cbn [bind] in H.
    destruct (mapM (fun a => bind (getter a) (fun k => Some (a, k))) l) as [ks | ];
      [ | discriminate].
    cbn [bind] in H. injection H as <-.
    destruct (IH ks eq_refl) as [Hf Hk]. split.
    + simpl. f_equal. exact Hf.
    + constructor; [exact Ek | exact Hk].
Qed.

Lemma keyed_total {T : Type} (getter : T -> option R) (l : list T) :
  Forall (fun a => exists k, getter a = Some k) l ->
  exists keyed, mapM (fun a => bind (getter a) (fun k => Some (a, k))) l = Some keyed.
Proof.
  intros H. apply mapM_total. eapply Forall_impl; [ | exact H].
  intros a [k Hk]. rewrite Hk. eexists; reflexivity.
Qed.

(** The result of [sort] when the getter does not throw: the elements
    paired with their keys, sorted, and the keys dropped. *)
Lemma sort_desc_keyed {T : Type} (getter : T -> option R) (l : list T) :
  Forall (fun a => exists k, getter a = Some k) l ->
  exists keyed,
    mapM (fun a => bind (getter a) (fun k => Some (a, k))) l = Some keyed
    /\ Radash.sort_desc l getter = Some (map fst (Array_sort Radash.keyDesc keyed)).
Proof.
  intros H. destruct (keyed_total getter l H) as [keyed Hk].
  exists keyed. split; [exact Hk | ].
  unfold Radash.sort_desc.
  destruct l as [ | x [ | y l]].
  - injection Hk as <-. reflexivity.
  - destruct (keyed_fst _ _ _ Hk) as [Hf _].
    destruct keyed as [ | [a k] [ | ? ?]]; try discriminate.
    simpl in Hf. injection Hf as ->. reflexivity.
  - rewrite Hk. reflexivity.
Qed.

Lemma sort_desc_perm {T : Type} (getter : T -> option R) (l r : list T) :
  Radash.sort_desc l getter = Some r -> Permutation r l.
Proof.
  unfold Radash.sort_desc. intros H.
  destruct l as [ | x [ | y l]]; try (injection H as <-; reflexivity).
  destruct (mapM (fun a => bind (getter a) (fun k => Some (a, k))) (x :: y :: l))
    as [keyed | ] eqn:Hk; [ | discriminate].
  cbn [bind] in H. injection H as <-.
  destruct (keyed_fst _ _ _ Hk) as [Hf _]. rewrite <- Hf.
  apply Permutation_map. apply Array_sort_perm.
Qed.




(* ================================================================== *)
(** * Well-formed solvers *)
(* ================================================================== *)

Lemma sameConfig_refl (s : VRPSolver) : sameConfig s s.
Proof. destruct s. reflexivity. Qed.

Lemma sameConfig_trans (s1 s2 s3 : VRPSolver) :
  sameConfig s1 s2 -> sameConfig s2 s3 -> sameConfig s1 s3.
Proof.
  unfold sameConfig. intros H12 H23. rewrite H23. rewrite H12 at 1. reflexivity.
Qed.

Lemma sameConfig_set (s : VRPSolver) (pop : list Individual) :
  sameConfig s (set_population s pop).
Proof. reflexivity. Qed.

Lemma range_id_bound (a n i : nat) :
  In i (Radash.range a n (fun i => i)) -> (i <= n)%nat.
Proof.
  unfold Radash.range. rewrite map_id. intros H. apply in_seq in H.
  destruct (Nat.eqb n 0); lia.
Qed.

Lemma range_const (a n : nat) (i : nat) :
  In i (Radash.range a n (fun _ => 0%nat)) -> i = 0%nat.
Proof.
  unfold Radash.range. intros H. apply in_map_iff in H.
  destruct H as (? & E & _). symmetry. exact E.
Qed.

Lemma baseIndividual_inRange (s : VRPSolver) :
  length (coords s) = S (length (stops s)) -> inRange s (baseIndividual s).
Proof.
  intros Hc. unfold inRange, baseIndividual. apply Forall_forall. intros i Hi.
  apply in_app_or in Hi. destruct Hi as [Hi | Hi].
  - apply range_id_bound in Hi. lia.
  - apply range_const in Hi. lia.
Qed.

Lemma wellFormed_coords_length (s : VRPSolver) :
  wellFormed s -> length (coords s) = S (length (stops s)).
Proof. intros [[depot Hc] _ _ _ _]. rewrite Hc. reflexivity. Qed.

Lemma wellFormed_inRange (s : VRPSolver) (ind : Individual) :
  wellFormed s -> In ind (population s) -> inRange s ind.
Proof.
  intros Hwf Hin. pose proof (wf_individuals s Hwf) as Hall.
  rewrite Forall_forall in Hall. unfold inRange.
  eapply Permutation_Forall; [symmetry; exact (Hall _ Hin) | ].
  apply baseIndividual_inRange. apply wellFormed_coords_length. exact Hwf.
Qed.

(** ** The fitness evaluation does not throw on in-range individuals *)

Lemma getRouteDistance_total (s : VRPSolver) (route : list nat) :
  (0 < length (coords s))%nat ->
  Forall (fun i => (i < length (coords s))%nat) route ->
  exists d, getRouteDistance s route = Some d.
Proof.
  intros H0 Hr. rewrite getRouteDistance_pathLength.
  destruct (mapM_total (nth_error (coords s)) (0%nat :: route ++ [0%nat])) as [cs Hcs].
  - assert (Hall : Forall (fun i => (i < length (coords s))%nat)
                     (0%nat :: route ++ [0%nat])).
    { constructor; [exact H0 | ]. apply Forall_app. split; [exact Hr | ].
      constructor; [exact H0 | constructor]. }
    eapply Forall_impl; [ | exact Hall].
    intros i Hi. apply nth_error_Some in Hi.
    destruct (nth_error (coords s) i) as [c | ]; [exists c; reflexivity | contradiction].
  - rewrite Hcs. eexists; reflexivity.
Qed.

Lemma decode_inRange (s : VRPSolver) (ind : Individual) :
  inRange s ind -> Forall (inRange s) (decode s ind).
Proof.
  intros Hind. eapply Forall_impl; [ | apply decode_incl].
  intros route Hincl. unfold inRange in *. rewrite Forall_forall in *.
  intros i Hi. apply Hind. apply Hincl. exact Hi.
Qed.

Lemma distances_total (s : VRPSolver) (ind : Individual) :
  (0 < length (coords s))%nat -> inRange s ind ->
  exists distances, mapM (getRouteDistance s) (decode s ind) = Some distances.
Proof.
  intros H0 Hind. apply mapM_total.
  eapply Forall_impl; [ | apply decode_inRange; exact Hind].
  intros route Hr. apply getRouteDistance_total; assumption.
Qed.

Lemma getFitness_total (s : VRPSolver) (ind : Individual) :
  (0 < length (coords s))%nat -> inRange s ind ->
  exists r, getFitness s ind = Some r.
Proof.
  intros H0 Hind. destruct (distances_total s ind H0 Hind) as [distances Hd].
  unfold getFitness. rewrite Hd. eexists; reflexivity.
Qed.

Lemma fitnessOf_total (s : VRPSolver) (ind : Individual) :
  wellFormed s -> In ind (population s) -> exists k, fitnessOf s ind = Some k.
Proof.
  intros Hwf Hin. unfold fitnessOf.
  destruct (getFitness_total s ind) as [r Hr].
  - rewrite (wellFormed_coords_length s Hwf). lia.
  - apply wellFormed_inRange; assumption.
  - rewrite Hr. eexists; reflexivity.
Qed.

Lemma fitnessOf_population (s : VRPSolver) :
  wellFormed s ->
  Forall (fun ind => exists k, fitnessOf s ind = Some k) (population s).
Proof.
  intros Hwf. apply Forall_forall. intros ind Hin.
  apply fitnessOf_total; assumption.
Qed.

(** ** The constructor *)

Lemma initLoop_spec (s : VRPSolver) (n : nat) :
  forall (pop : list Individual) (g : Rng),
  exists fresh,
    fst (initLoop s n pop g) = pop ++ fresh
    /\ length fresh = n
    /\ Forall (fun ind => Permutation ind (baseIndividual s)) fresh
    /\ (forall n', n = S n' ->
        nth_error fresh 0 = Some (fst (Radash.shuffle (baseIndividual s) g))).
Proof.
  induction n as [ | n IH]; intros pop g.
  - exists []. simpl. rewrite app_nil_r. repeat split; [constructor | discriminate].
  - cbn [initLoop].
    pose proof (shuffle_perm (baseIndividual s) g) as Hperm.
    destruct (Radash.shuffle (baseIndividual s) g) as [ind g']. simpl in Hperm.
    destruct (IH (pop ++ [ind]) g') as (fresh & Hf & Hlen & Hall & _).
    exists (ind :: fresh). rewrite Hf, <- app_assoc. simpl.
    repeat split; [f_equal; exact Hlen | constructor; assumption].
Qed.

Lemma new_VRPSolver_fields (warehouse : Coord) (stops0 : list Coord) (g : Rng) :
  let s := fst (new_VRPSolver warehouse stops0 g) in
  weightTime s = 1 /\ weightDistance s = 1 /\ driverNum s = 10%nat
  /\ coords s = warehouse :: stops0 /\ stops s = stops0
  /\ individualNum s = 100%nat /\ selectedNum s = 50%nat /\ iterNum s = 200%nat.
Proof.
  unfold new_VRPSolver, initPopulation.
  destruct (initLoop _ _ _ _) as [pop g']. simpl. repeat split.
Qed.

Lemma new_VRPSolver_wellFormed (warehouse : Coord) (stops0 : list Coord) (g : Rng) :
  wellFormed (fst (new_VRPSolver warehouse stops0 g)).
Proof.
  unfold new_VRPSolver, initPopulation.
  set (s0 := mkVRPSolver 1 1 10 (warehouse :: stops0) stops0 [] 100 50 200).
  destruct (initLoop_spec s0 (individualNum s0) (population s0) g)
    as (fresh & Hf & Hlen & Hall & _).
  destruct (initLoop s0 (individualNum s0) (population s0) g) as [pop g'].
  simpl in Hf. subst pop. simpl.
  constructor; simpl.
  - exists warehouse. reflexivity.
  - exact Hlen.
  - lia.
  - lia.
  - exact Hall.
Qed.

Lemma setWeights_wellFormed (s : VRPSolver) (wT wD : R) :
  wellFormed s -> wellFormed (setWeights s wT wD).
Proof.
  intros [Hc Hs Hi Hsel Hall]. constructor; simpl; assumption.
Qed.

(* ================================================================== *)
(** * Evolution *)
(* ================================================================== *)

Lemma Math_random_bound (g : Rng) : (fst (Math_random g) < RANDOM_DENOMINATOR)%N.
Proof. unfold Math_random. simpl. apply N.mod_lt. discriminate. Qed.

(** *** Rounding to a double *)

Lemma size_bounds (p : N) : (0 < p -> 2 ^ (N.size p - 1) <= p < 2 ^ N.size p)%N.
Proof.
  intros Hp. rewrite N.size_log2 by lia.
  replace (N.succ (N.log2 p) - 1)%N with (N.log2 p) by lia.
  apply N.log2_spec. exact Hp.
Qed.

Lemma roundDouble_small (p : N) : (N.size p <= 53)%N -> roundDouble p = p.
Proof.
  intros H. unfold roundDouble.
  replace (N.size p - 53)%N with 0%N by lia. reflexivity.
Qed.

(** A number of more than 53 bits is rounded to one of its two neighbours
    among the multiples of its unit in the last place, upwards only from the
    upper half of the interval. *)
Lemma roundDouble_large (p : N) :
  (53 < N.size p)%N ->
  let shift := (N.size p - 53)%N in
  let half := (2 ^ (shift - 1))%N in
  (2 ^ shift = 2 * half /\
   half * 2 ^ 53 <= p /\
   2 ^ 52 <= p / 2 ^ shift < 2 ^ 53 /\
   (roundDouble p = (p / 2 ^ shift) * 2 ^ shift \/
    roundDouble p = (p / 2 ^ shift + 1) * 2 ^ shift /\ half <= p mod 2 ^ shift))%N.
Proof.
  intros Hs shift half.
  assert (Hp : (0 < p)%N).
  { destruct p; [simpl in Hs; lia | lia]. }
  destruct (size_bounds p Hp) as [Hlo Hhi].
  assert (Hshift : (2 ^ shift = 2 * half)%N).
  { unfold half. replace shift with (N.succ (shift - 1)) at 1 by (unfold shift; lia).
    apply N.pow_succ_r'. }
  assert (Hlow : (half * 2 ^ 53 <= p)%N).
  { unfold half. rewrite <- N.pow_add_r.
    replace (shift - 1 + 53)%N with (N.size p - 1)%N by (unfold shift; lia). exact Hlo. }
  assert (Hsz : (2 ^ N.size p = 2 ^ 53 * 2 ^ shift)%N).
  { rewrite <- N.pow_add_r. f_equal. unfold shift. lia. }
  assert (Hsz' : (2 ^ (N.size p - 1) = 2 ^ 52 * 2 ^ shift)%N).
  { rewrite <- N.pow_add_r. f_equal. unfold shift. lia. }
  assert (Hpos : (0 < 2 ^ shift)%N) by (apply N.neq_0_lt_0, N.pow_nonzero; lia).
  split; [exact Hshift | ]. split; [exact Hlow | ]. split.
  - split.
    + apply N.div_le_lower_bound; [lia | ]. rewrite N.mul_comm. rewrite <- Hsz'. exact Hlo.
    + apply N.Div0.div_lt_upper_bound. rewrite N.mul_comm, <- Hsz. exact Hhi.
  - unfold roundDouble. fold shift.
    destruct (N.eqb_spec shift 0) as [E | E]; [unfold shift in E; lia | ].
    cbv zeta. fold half.
    destruct ((half <? p mod 2 ^ shift)%N
              || ((p mod 2 ^ shift =? half)%N && N.odd (p / 2 ^ shift))) eqn:Eup.
    + right. split; [reflexivity | ].
      apply orb_true_iff in Eup. destruct Eup as [Eup | Eup].
      * apply N.ltb_lt in Eup. lia.
      * apply andb_true_iff in Eup. destruct Eup as [Eup _]. apply N.eqb_eq in Eup. lia.
    + left. reflexivity.
Qed.

(** The product of a draw below 1 and [n] stays below [n] after rounding. *)
Lemma roundDouble_lt (p n : N) :
  (p <= (2 ^ 53 - 1) * n -> 0 < n -> roundDouble p < n * 2 ^ 53)%N.
Proof.
  intros Hp Hn.
  destruct (N.le_gt_cases (N.size p) 53) as [Hs | Hs].
  - rewrite roundDouble_small by exact Hs.
    assert (0 < 2 ^ 53)%N by (apply N.neq_0_lt_0, N.pow_nonzero; lia). nia.
  - destruct (roundDouble_large p Hs) as (Hshift & Hlow & _ & Hr).
    set (shift := (N.size p - 53)%N) in *. set (half := (2 ^ (shift - 1))%N) in *.
    assert (H53 : (0 < 2 ^ 53)%N) by (apply N.neq_0_lt_0, N.pow_nonzero; lia).
    pose proof (N.Div0.div_mod p (2 ^ shift)) as Hdm.
    assert (Hposs : (2 ^ shift <> 0)%N) by (apply N.pow_nonzero; lia).
    pose proof (N.mod_lt p (2 ^ shift) Hposs) as Hml.
    set (D := (2 ^ 53)%N) in *. set (q := (p / 2 ^ shift)%N) in *.
    set (low := (p mod 2 ^ shift)%N) in *. set (u := (2 ^ shift)%N) in *.
    clearbody D q low u half shift.
    assert (Hhn : (half < n)%N) by nia.
    destruct Hr as [Hr | [Hr Hup]]; rewrite Hr; nia.
Qed.

(** A double is its own rounding. *)
Lemma roundDouble_idem (p : N) : roundDouble (roundDouble p) = roundDouble p.
Proof.
  destruct (N.le_gt_cases (N.size p) 53) as [Hs | Hs].
  - rewrite (roundDouble_small p Hs). apply roundDouble_small. exact Hs.
  - destruct (roundDouble_large p Hs) as (Hshift & Hlow & [Hq1 Hq2] & Hr).
    set (shift := (N.size p - 53)%N) in *. set (half := (2 ^ (shift - 1))%N) in *.
    assert (Hposs : (2 ^ shift <> 0)%N) by (apply N.pow_nonzero; lia).
    assert (Hgen : forall q', (2 ^ 52 <= q' <= 2 ^ 53)%N ->
              roundDouble (q' * 2 ^ shift) = (q' * 2 ^ shift)%N).
    { intros q' [Hl Hu].
      assert (Hq'pos : (0 < q' * 2 ^ shift)%N).
      { assert (0 < 2 ^ 52)%N by (apply N.neq_0_lt_0, N.pow_nonzero; lia). nia. }
      destruct (N.eq_dec q' (2 ^ 53)) as [E | E].
      - subst q'. rewrite <- N.pow_add_r.
        unfold roundDouble.
        assert (Hsize : N.size (2 ^ (53 + shift)) = (54 + shift)%N).
        { rewrite N.size_log2 by (apply N.pow_nonzero; lia).
          rewrite N.log2_pow2 by lia. lia. }
        rewrite Hsize.
        replace (54 + shift - 53)%N with (N.succ shift) by lia.
        destruct (N.eqb_spec (N.succ shift) 0) as [E0 | E0]; [lia | ].
        cbv zeta.
        replace (2 ^ (53 + shift))%N with (2 ^ 52 * 2 ^ N.succ shift)%N
          by (rewrite <- N.pow_add_r; f_equal; lia).
        rewrite N.Div0.mod_mul, N.div_mul by (apply N.pow_nonzero; lia).
        replace (N.succ shift - 1)%N with shift by lia.
        assert (Hlt : (2 ^ shift <? 0)%N = false) by (apply N.ltb_ge; lia).
        assert (Heq : (0 =? 2 ^ shift)%N = false) by (apply N.eqb_neq; lia).
        rewrite Hlt, Heq. reflexivity.
      - unfold roundDouble.
        assert (Hsize : N.size (q' * 2 ^ shift) = (53 + shift)%N).
        { rewrite N.size_log2 by lia.
          assert (Hlog : N.log2 (q' * 2 ^ shift) = (52 + shift)%N).
          { apply N.log2_unique; [lia | ]. split.
            - rewrite N.pow_add_r. apply N.mul_le_mono_r. exact Hl.
            - replace (N.succ (52 + shift)) with (53 + shift)%N by lia.
              rewrite N.pow_add_r. apply N.mul_lt_mono_pos_r; lia. }
          rewrite Hlog. lia. }
        rewrite Hsize.
        replace (53 + shift - 53)%N with shift by lia.
        destruct (N.eqb_spec shift 0) as [E0 | E0]; [reflexivity | ].
        cbv zeta.
        rewrite N.Div0.mod_mul, N.div_mul by exact Hposs.
        assert (Hh : (0 < 2 ^ (shift - 1))%N) by (apply N.neq_0_lt_0, N.pow_nonzero; lia).
        assert (Hlt : (2 ^ (shift - 1) <? 0)%N = false) by (apply N.ltb_ge; lia).
        assert (Heq : (0 =? 2 ^ (shift - 1))%N = false) by (apply N.eqb_neq; lia).
        rewrite Hlt, Heq. reflexivity. }
    destruct Hr as [Hr | [Hr _]]; rewrite Hr; apply Hgen; lia.
Qed.

(** *** Drawing *)

Lemma random_bound (n : nat) (g : Rng) :
  (fst (Radash.random 0 n g) <= n)%nat.
Proof.
  unfold Radash.random. pose proof (Math_random_bound g) as Hr.
  destruct (Math_random g) as [r g']. cbn [fst] in *.
  rewrite Nat.sub_0_r. change (N.of_nat 0 * RANDOM_DENOMINATOR)%N with 0%N.
  rewrite N.add_0_r, roundDouble_idem.
  assert (H : (roundDouble (r * N.of_nat (n + 1)) / RANDOM_DENOMINATOR
               < N.of_nat (n + 1))%N).
  { apply N.Div0.div_lt_upper_bound. rewrite (N.mul_comm RANDOM_DENOMINATOR).
    apply roundDouble_lt; [ | lia].
    apply N.mul_le_mono_r. unfold RANDOM_DENOMINATOR in Hr. lia. }
  lia.
Qed.

(** On a non-empty array [draw] returns one of its elements. *)
Lemma draw_some {T : Type} (l : list T) (g : Rng) :
  l <> [] -> exists x, fst (Radash.draw l g) = Some x /\ In x l.
Proof.
  intros Hne. unfold Radash.draw.
  destruct (Nat.eqb (length l) 0) eqn:E.
  - apply Nat.eqb_eq in E. destruct l; [contradiction | discriminate].
  - apply Nat.eqb_neq in E. pose proof (random_bound (length l - 1) g) as Hb.
    destruct (Radash.random 0 (length l - 1) g) as [index g']. simpl in *.
    destruct (nth_error l index) as [x | ] eqn:Ex.
    + exists x. split; [reflexivity | ]. eapply nth_error_In. exact Ex.
    + apply nth_error_None in Ex. lia.
Qed.

Lemma mutationLoop_spec (s : VRPSolver) (n : nat) :
  population s <> [] ->
  forall (mutations : list Individual) (g : Rng),
  exists fresh g',
    mutationLoop s n mutations g = Some (mutations ++ fresh, g')
    /\ length fresh = n
    /\ Forall (fun m => exists src, In src (population s) /\ Permutation m src) fresh.
Proof.
  intros Hne. induction n as [ | n IH]; intros mutations g.
  - exists [], g. simpl. rewrite app_nil_r. repeat split. constructor.
  - cbn [mutationLoop].
    destruct (draw_some (population s) g Hne) as (src & Hdraw & Hin).
    destruct (Radash.draw (population s) g) as [source g1]. simpl in Hdraw.
    subst source. cbn [bind].
    pose proof (shuffle_perm src g1) as Hperm.
    destruct (Radash.shuffle src g1) as [mutant g2]. simpl in Hperm.
    destruct (IH (mutations ++ [mutant]) g2) as (fresh & g' & Hloop & Hlen & Hall).
    exists (mutant :: fresh), g'. rewrite Hloop, <- app_assoc. simpl.
    repeat split; [f_equal; exact Hlen | ].
    constructor; [exists src; split; assumption | exact Hall].
Qed.

Lemma wellFormed_nonempty (s : VRPSolver) : wellFormed s -> population s <> [].
Proof.
  intros Hwf E. pose proof (wf_size s Hwf) as Hs.
  pose proof (wf_individualNum s Hwf) as Hi. rewrite E in Hs. simpl in Hs. lia.
Qed.

Lemma mutation_spec (s : VRPSolver) (g : Rng) :
  wellFormed s ->
  exists mutations g',
    mutation s g = Some (mutations, g')
    /\ length mutations = (individualNum s - selectedNum s)%nat
    /\ Forall (fun m => Permutation m (baseIndividual s)) mutations.
Proof.
  intros Hwf. unfold mutation.
  destruct (mutationLoop_spec s (individualNum s - selectedNum s)
              (wellFormed_nonempty s Hwf) [] g) as (fresh & g' & Hloop & Hlen & Hall).
  exists fresh, g'. simpl in Hloop. repeat split; [exact Hloop | exact Hlen | ].
  eapply Forall_impl; [ | exact Hall].
  intros m (src & Hin & Hperm). etransitivity; [exact Hperm | ].
  pose proof (wf_individuals s Hwf) as Hpop. rewrite Forall_forall in Hpop.
  exact (Hpop _ Hin).
Qed.

Lemma slice_firstn {T : Type} (l : list T) (n : nat) :
  slice l 0 (Z.of_nat n) = firstn n l.
Proof.
  unfold slice, relIndex. change (0 <? 0)%Z with false. cbv iota.
  destruct (Z.of_nat n <? 0)%Z eqn:E; [apply Z.ltb_lt in E; lia | ].
  rewrite (Z.min_l 0) by lia. change (Z.to_nat 0) with 0%nat.
  cbn [skipn]. rewrite Z.sub_0_r.
  destruct (Nat.le_gt_cases n (length l)) as [Hle | Hgt].
  - rewrite Z.min_l by lia. rewrite Nat2Z.id. reflexivity.
  - rewrite Z.min_r by lia. rewrite Nat2Z.id.
    rewrite !firstn_all2 by lia. reflexivity.
Qed.

Lemma select_spec (s : VRPSolver) :
  wellFormed s ->
  exists sorted,
    Radash.sort_desc (population s) (fitnessOf s) = Some sorted
    /\ Permutation sorted (population s)
    /\ select s = Some (firstn (selectedNum s) sorted)
    /\ length (firstn (selectedNum s) sorted) = selectedNum s.
Proof.
  intros Hwf.
  destruct (sort_desc_keyed (fitnessOf s) (population s) (fitnessOf_population s Hwf))
    as (keyed & _ & Hsort).
  pose proof (sort_desc_perm _ _ _ Hsort) as Hperm.
  eexists. split; [exact Hsort | ]. split; [exact Hperm | ].
  unfold select. rewrite Hsort. cbn [bind]. rewrite slice_firstn.
  split; [reflexivity | ].
  apply firstn_length_le. rewrite (Permutation_length Hperm), (wf_size s Hwf).
  exact (wf_selectedNum s Hwf).
Qed.

Lemma set_population_wellFormed (s : VRPSolver) (pop : list Individual) :
  wellFormed s ->
  length pop = individualNum s ->
  Forall (fun ind => Permutation ind (baseIndividual s)) pop ->
  wellFormed (set_population s pop).
Proof.
  intros [Hc Hs Hi Hsel Hall] Hlen Hpop. constructor; simpl; assumption.
Qed.

(** One generation: survivors followed by mutants, and the solver stays
    well formed. *)
Lemma reproduce_spec (s : VRPSolver) (g : Rng) :
  wellFormed s ->
  exists selected mutations g',
    select s = Some selected
    /\ mutation s g = Some (mutations, g')
    /\ reproduce s g = Some (set_population s (selected ++ mutations), g')
    /\ length selected = selectedNum s
    /\ length mutations = (individualNum s - selectedNum s)%nat
    /\ wellFormed (set_population s (selected ++ mutations)).
Proof.
  intros Hwf.
  destruct (select_spec s Hwf) as (sorted & Hsort & Hperm & Hsel & Hlen).
  destruct (mutation_spec s g Hwf) as (mutations & g' & Hmut & Hmlen & Hmall).
  exists (firstn (selectedNum s) sorted), mutations, g'.
  split; [exact Hsel | ]. split; [exact Hmut | ].
  split; [unfold reproduce; rewrite Hsel, Hmut; reflexivity | ].
  split; [exact Hlen | ]. split; [exact Hmlen | ].
  apply set_population_wellFormed; [exact Hwf | | ].
  - rewrite length_app, Hlen, Hmlen. pose proof (wf_selectedNum s Hwf). lia.
  - apply Forall_app. split; [ | exact Hmall].
    pose proof (wf_individuals s Hwf) as Hpop. rewrite Forall_forall in *.
    intros ind Hin. apply Hpop. eapply Permutation_in; [exact Hperm | ].
    eapply In_firstn. exact Hin.
Qed.

(** Any number of generations runs to completion and keeps the solver well
    formed, with the configuration it started from. *)
Lemma evolve_spec (k : nat) :
  forall (s : VRPSolver) (g : Rng),
    wellFormed s ->
    exists s' g',
      evolve k s g = Some (s', g') /\ wellFormed s' /\ sameConfig s s'.
Proof.
  induction k as [ | k IH]; intros s g Hwf.
  - exists s, g. split; [reflexivity | ]. split; [exact Hwf | apply sameConfig_refl].
  - destruct (reproduce_spec s g Hwf)
      as (selected & mutations & g1 & _ & _ & Hrep & _ & _ & Hwf1).
    destruct (IH _ g1 Hwf1) as (s' & g' & Hev & Hwf' & Hcfg).
    exists s', g'. cbn [evolve]. rewrite Hrep. cbn [bind].
    split; [exact Hev | ]. split; [exact Hwf' | ].
    eapply sameConfig_trans; [apply sameConfig_set | exact Hcfg].
Qed.

Lemma evolve_snoc (k : nat) :
  forall (s : VRPSolver) (g : Rng),
    evolve (S k) s g = bind (evolve k s g) (fun '(s', g') => reproduce s' g').
Proof.
  induction k as [ | k IH]; intros s g.
  - cbn [evolve bind]. destruct (reproduce s g) as [[s' g'] | ]; reflexivity.
  - change (evolve (S (S k)) s g)
      with (bind (reproduce s g) (fun '(s', g') => evolve (S k) s' g')).
    change (evolve (S k) s g)
      with (bind (reproduce s g) (fun '(s', g') => evolve k s' g')).
    destruct (reproduce s g) as [[s1 g1] | ]; cbn [bind]; [apply IH | reflexivity].
Qed.

Lemma initialSolver_wellFormed warehouse stops0 wT wD g :
  wellFormed (initialSolver warehouse stops0 wT wD g).
Proof. apply setWeights_wellFormed, new_VRPSolver_wellFormed. Qed.

Lemma initialSolver_fields warehouse stops0 wT wD g :
  let s := initialSolver warehouse stops0 wT wD g in
  coords s = warehouse :: stops0 /\ stops s = stops0 /\ driverNum s = 10%nat
  /\ individualNum s = 100%nat /\ selectedNum s = 50%nat /\ iterNum s = 200%nat.
Proof.
  destruct (new_VRPSolver_fields warehouse stops0 g)
    as (_ & _ & Hd & Hc & Hs & Hi & Hsel & Hit).
  unfold initialSolver. simpl. repeat split; assumption.
Qed.

Lemma sameConfig_fields (s s' : VRPSolver) :
  sameConfig s s' ->
  coords s' = coords s /\ stops s' = stops s /\ driverNum s' = driverNum s
  /\ individualNum s' = individualNum s /\ selectedNum s' = selectedNum s
  /\ iterNum s' = iterNum s /\ weightTime s' = weightTime s
  /\ weightDistance s' = weightDistance s.
Proof. intros ->. simpl. repeat split. Qed.

(** C8. The population holds exactly [individualNum] (100) individuals after
    the constructor and after every generation: a generation replaces it
    with [selectedNum] survivors followed by [individualNum - selectedNum]
    mutants. *)
Theorem population_size_invariant
  (warehouse : Coord) (stops0 : list Coord) (wT wD : R) (g : Rng) (k : nat) :
  let s0 := initialSolver warehouse stops0 wT wD g in
  let g0 := initialRng warehouse stops0 g in
  individualNum s0 = 100%nat
  /\ length (population s0) = individualNum s0
  /\ exists s gk selected mutations g',
       evolve k s0 g0 = Some (s, gk)
       /\ length (population s) = individualNum s0
       /\ select s = Some selected
       /\ mutation s gk = Some (mutations, g')
       /\ length selected = selectedNum s0
       /\ length mutations = (individualNum s0 - selectedNum s0)%nat
       /\ evolve (S k) s0 g0 = Some (set_population s (selected ++ mutations), g')
       /\ length (selected ++ mutations) = individualNum s0.
Proof.
  intros s0 g0.
  pose proof (initialSolver_wellFormed warehouse stops0 wT wD g) as Hwf0.
  destruct (initialSolver_fields warehouse stops0 wT wD g)
    as (_ & _ & _ & Hi & Hsel & _).
  fold s0 in Hwf0, Hi, Hsel.
  split; [exact Hi | ]. split; [exact (wf_size s0 Hwf0) | ].
  destruct (evolve_spec k s0 g0 Hwf0) as (s & gk & Hev & Hwf & Hcfg).
  destruct (sameConfig_fields _ _ Hcfg) as (_ & _ & _ & Hi' & Hsel' & _).
  destruct (reproduce_spec s gk Hwf)
    as (selected & mutations & g' & Hs & Hm & Hrep & Hls & Hlm & _).
  exists s, gk, selected, mutations, g'.
  split; [exact Hev | ].
  split; [rewrite (wf_size s Hwf); exact Hi' | ].
  split; [exact Hs | ]. split; [exact Hm | ].
  split; [rewrite Hls; exact Hsel' | ].
  split; [rewrite Hlm, Hi', Hsel'; reflexivity | ].
  split; [rewrite evolve_snoc, Hev; exact Hrep | ].
  rewrite length_app, Hls, Hlm, Hi', Hsel', Hi, Hsel. reflexivity.
Qed.

(** C10. In every generation the population that [mutation] draws from is
    non-empty (it holds [individualNum] individuals), so [draw] returns an
    individual of the population, never [null], and [mutation] returns
    exactly [individualNum - selectedNum] mutants. *)
Theorem mutation_draw_succeeds
  (warehouse : Coord) (stops0 : list Coord) (wT wD : R) (g : Rng) (k : nat) :
  let s0 := initialSolver warehouse stops0 wT wD g in
  let g0 := initialRng warehouse stops0 g in
  exists s gk,
    evolve k s0 g0 = Some (s, gk)
    /\ length (population s) = individualNum s
    /\ (0 < individualNum s)%nat
    /\ (forall gd : Rng, exists source,
           fst (Radash.draw (population s) gd) = Some source
           /\ In source (population s))
    /\ exists mutations g',
         mutation s gk = Some (mutations, g')
         /\ length mutations = (individualNum s - selectedNum s)%nat.
Proof.
  intros s0 g0.
  destruct (evolve_spec k s0 g0 (initialSolver_wellFormed warehouse stops0 wT wD g))
    as (s & gk & Hev & Hwf & _).
  exists s, gk. split; [exact Hev | ].
  split; [exact (wf_size s Hwf) | ].
  split; [exact (wf_individualNum s Hwf) | ].
  split.
  - intros gd. apply draw_some. apply wellFormed_nonempty. exact Hwf.
  - destruct (mutation_spec s gk Hwf) as (mutations & g' & Hm & Hlen & _).
    exists mutations, g'. split; assumption.
Qed.

(* ================================================================== *)
(** * Elitism *)
(* ================================================================== *)

Lemma maximum_spec (x : R) (xs : list R) :
  In (fold_right Rmax x xs) (x :: xs)
  /\ forall y, In y (x :: xs) -> y <= fold_right Rmax x xs.
Proof.
  induction xs as [ | z xs [IHin IHle]]; simpl.
  - split; [left; reflexivity | ]. intros y [<- | []]. lra.
  - split.
    + destruct (Rle_dec z (fold_right Rmax x xs)) as [Hz | Hz].
      * rewrite (Rmax_right _ _ Hz).
        destruct IHin as [E | Hin]; [left; exact E | right; right; exact Hin].
      * rewrite Rmax_left by lra. right; left; reflexivity.
    + intros y [<- | [<- | Hy]].
      * etransitivity; [apply IHle; left; reflexivity | apply Rmax_r].
      * apply Rmax_l.
      * etransitivity; [apply IHle; right; exact Hy | apply Rmax_r].
Qed.






(* ================================================================== *)
(** * Fitness *)
(* ================================================================== *)

Lemma fold_left_Rplus (l : list R) (a : R) :
  fold_left Rplus l a = a + Spec.sum l.
Proof.
  revert a. induction l as [ | x l IH]; intros a; simpl.
  - ring.
  - rewrite IH. unfold Spec.sum. ring.
Qed.

Lemma keepGreater_Rmax (a b : R) : (if Rgtb a b then a else b) = Rmax a b.
Proof.
  unfold Rgtb. destruct (Rgt_dec a b) as [H | H].
  - rewrite Rmax_left by lra. reflexivity.
  - rewrite Rmax_right by lra. reflexivity.
Qed.

Lemma fold_right_Rmax_swap (xs : list R) (x y : R) :
  fold_right Rmax (Rmax x y) xs = Rmax y (fold_right Rmax x xs).
Proof.
  induction xs as [ | z xs IH]; simpl.
  - apply Rmax_comm.
  - rewrite IH, !Rmax_assoc, (Rmax_comm z y). reflexivity.
Qed.

(** radash's [max] is the maximum. *)
Lemma max_maximum (l : list R) : Radash.max l = Spec.maximum l.
Proof.
  destruct l as [ | x xs]; [reflexivity | ].
  unfold Radash.max, Radash.boil, reduce1, Spec.maximum. f_equal.
  revert x. induction xs as [ | y xs IH]; intros x; simpl; [reflexivity | ].
  rewrite keepGreater_Rmax, IH. apply fold_right_Rmax_swap.
Qed.

Lemma getFitness_unfold (s : VRPSolver) (ind : Individual) (distances : list R) :
  mapM (getRouteDistance s) (decode s ind) = Some distances ->
  getFitness s ind =
  Some (mkFitnessResult
          (- Spec.score (toNumber (Radash.max (map getRouteTime distances)))
               (fold_left Rplus distances 0) (weightTime s) (weightDistance s))
          (decode s ind) (fold_left Rplus distances 0)
          (Radash.max (map getRouteTime distances))).
Proof. intros H. unfold getFitness. rewrite H. reflexivity. Qed.

Lemma getFitness_inv (s : VRPSolver) (ind : Individual) (r : FitnessResult) :
  getFitness s ind = Some r ->
  exists distances,
    mapM (getRouteDistance s) (decode s ind) = Some distances
    /\ fit_routes r = decode s ind
    /\ fit_totalDistance r = Spec.sum distances
    /\ fit_totalTime r = Spec.maximum (map getRouteTime distances)
    /\ fitness r = - costOf s r.
Proof.
  intros H.
  destruct (mapM (getRouteDistance s) (decode s ind)) as [distances | ] eqn:Hd.
  - rewrite (getFitness_unfold s ind distances Hd) in H. injection H as <-.
    exists distances. unfold costOf. simpl.
    rewrite fold_left_Rplus, Rplus_0_l, max_maximum. repeat split.
  - unfold getFitness in H. rewrite Hd in H. discriminate.
Qed.






(* ================================================================== *)
(** * The result *)
(* ================================================================== *)

Section SolveProperties.

Variable Number_toString : R -> string.

Lemma join_urlPath (text : Coord -> string) (cs : list Coord) :
  join "/" (map text cs) = Spec.urlPath text cs.
Proof.
  unfold join. induction cs as [ | c [ | d cs] IH]; [reflexivity | reflexivity | ].
  change (String.concat "/" (map text (c :: d :: cs)))
    with (text c ++ "/" ++ String.concat "/" (map text (d :: cs)))%string.
  rewrite IH. reflexivity.
Qed.

Lemma buildRoute_reports (s : VRPSolver) (route : list nat) (vr : VRPRoute) :
  buildRoute Number_toString s route = Some vr -> reports (coordText Number_toString) s route vr.
Proof.
  unfold buildRoute. intros H.
  destruct (getRouteDistance s route) as [d | ] eqn:Hd; [ | discriminate].
  cbn [bind] in H.
  destruct (mapM (nth_error (coords s)) (0%nat :: route ++ [0%nat])) as [cs | ] eqn:Hcs;
    [ | discriminate].
  cbn [bind] in H. injection H as <-. unfold reports.
  cbn [indices paths distance driveTime time googleMapUrl].
  rewrite join_urlPath.
  split; [reflexivity | ]. split; [exact Hcs | ]. split; [exact Hd | ].
  split; [reflexivity | ]. split; reflexivity.
Qed.

Lemma buildRoute_total (s : VRPSolver) (route : list nat) :
  (0 < length (coords s))%nat -> inRange s route ->
  exists vr, buildRoute Number_toString s route = Some vr.
Proof.
  intros H0 Hr. unfold buildRoute.
  destruct (getRouteDistance_total s route H0 Hr) as [d Hd].
  pose proof Hd as Hd'. rewrite getRouteDistance_pathLength in Hd'.
  rewrite Hd. cbn [bind].
  destruct (mapM (nth_error (coords s)) (0%nat :: route ++ [0%nat])) as [cs | ];
    [ | discriminate].
  eexists; reflexivity.
Qed.

Lemma buildRoutes_reports (s : VRPSolver) (rs : list (list nat)) (out : list VRPRoute) :
  mapM (buildRoute Number_toString s) rs = Some out -> Forall2 (reports (coordText Number_toString) s) rs out.
Proof.
  intros H. apply mapM_Forall2 in H. eapply Forall2_impl; [ | exact H].
  intros route vr Hb. apply buildRoute_reports. exact Hb.
Qed.

Lemma reports_distances (s : VRPSolver) (rs : list (list nat)) (out : list VRPRoute)
  (distances : list R) :
  Forall2 (reports (coordText Number_toString) s) rs out ->
  mapM (getRouteDistance s) rs = Some distances ->
  map distance out = distances /\ map time out = map getRouteTime distances.
Proof.
  intros HF. revert distances.
  induction HF as [ | route vr rs out Hr _ IH]; intros distances Hd.
  - injection Hd as <-. split; reflexivity.
  - rewrite mapM_cons in Hd. destruct Hr as (_ & _ & Hdist & _ & Htime & _).
    rewrite Hdist in Hd. cbn [bind] in Hd.
    destruct (mapM (getRouteDistance s) rs) as [ds | ]; [ | discriminate].
    cbn [bind] in Hd. injection Hd as <-.
    destruct (IH ds eq_refl) as [E1 E2]. simpl. rewrite E1, E2, Htime.
    split; reflexivity.
Qed.

(** The end of [solve] on a well-formed solver: the ranking, its first
    individual, the fitness evaluation of that individual and the routes
    built from it. *)
Lemma assemble_spec (s : VRPSolver) :
  wellFormed s ->
  exists results best r out,
    Radash.sort_desc (population s) (fitnessOf s) = Some results
    /\ nth_error results 0 = Some best
    /\ In best (population s)
    /\ getFitness s best = Some r
    /\ mapM (buildRoute Number_toString s) (fit_routes r) = Some out
    /\ assemble Number_toString s
       = Some (mkVRPSolve out (fit_totalDistance r) (fit_totalTime r)).
Proof.
  intros Hwf.
  destruct (select_spec s Hwf) as (results & Hsort & Hperm & _ & _).
  destruct results as [ | best rest].
  { exfalso. apply (wellFormed_nonempty s Hwf). apply Permutation_nil. exact Hperm. }
  assert (Hin : In best (population s))
    by (eapply Permutation_in; [exact Hperm | left; reflexivity]).
  assert (H0 : (0 < length (coords s))%nat)
    by (rewrite (wellFormed_coords_length s Hwf); lia).
  pose proof (wellFormed_inRange s best Hwf Hin) as Hrange.
  destruct (getFitness_total s best H0 Hrange) as [r Hr].
  destruct (getFitness_inv s best r Hr) as (_ & _ & Hroutes & _).
  destruct (mapM_total (buildRoute Number_toString s) (fit_routes r)) as [out Hout].
  { rewrite Hroutes. eapply Forall_impl; [ | apply decode_inRange; exact Hrange].
    intros route Hroute. apply buildRoute_total; assumption. }
  exists (best :: rest), best, r, out.
  split; [exact Hsort | ]. split; [reflexivity | ]. split; [exact Hin | ].
  split; [exact Hr | ]. split; [exact Hout | ].
  unfold assemble. rewrite Hsort. cbn [bind nth_error]. rewrite Hr. cbn [bind].
  rewrite Hout. reflexivity.
Qed.

Lemma solve_spec (s0 : VRPSolver) (g0 : Rng) :
  wellFormed s0 ->
  exists s g' results best r out,
    evolve (iterNum s0) s0 g0 = Some (s, g')
    /\ wellFormed s /\ sameConfig s0 s
    /\ Radash.sort_desc (population s) (fitnessOf s) = Some results
    /\ nth_error results 0 = Some best
    /\ In best (population s)
    /\ getFitness s best = Some r
    /\ mapM (buildRoute Number_toString s) (fit_routes r) = Some out
    /\ solve Number_toString s0 g0
       = Some (mkVRPSolve out (fit_totalDistance r) (fit_totalTime r), g').
Proof.
  intros Hwf0.
  destruct (evolve_spec (iterNum s0) s0 g0 Hwf0) as (s & g' & Hev & Hwf & Hcfg).
  destruct (assemble_spec s Hwf) as (results & best & r & out & H1 & H2 & H3 & H4 & H5 & H6).
  exists s, g', results, best, r, out.
  repeat (split; [assumption | ]).
  unfold solve. rewrite Hev. cbn [bind]. rewrite H6. reflexivity.
Qed.


Lemma closed_path (cs : list Coord) (depot : Coord) (route : list nat)
  (ps : list Coord) :
  nth_error cs 0 = Some depot ->
  mapM (nth_error cs) (0%nat :: route ++ [0%nat]) = Some ps ->
  exists mid, ps = depot :: mid ++ [depot].
Proof.
  intros Hdepot H. rewrite mapM_cons, Hdepot in H. cbn [bind] in H.
  rewrite mapM_app in H.
  destruct (mapM (nth_error cs) route) as [mid | ]; [ | discriminate].
  cbn [bind] in H. rewrite mapM_cons, Hdepot in H. cbn [bind mapM] in H.
  injection H as <-. exists mid. reflexivity.
Qed.

(** C6. Every route that [solve] reports comes from a decoded route of
    the best individual: its indices are the decoded route between two
    depot indices 0, its path looks the indices up in the coordinate table
    and so begins and ends at the depot, its drive time is the distance
    over 50, its time is [getRouteTime] of the distance, and its map link
    is the base address followed by the [latitude,longitude] pairs of the
    path in order, separated by [/]. *)
Theorem solve_routes_reported
  (warehouse : Coord) (stops0 : list Coord) (wT wD : R) (g : Rng) :
  let s0 := initialSolver warehouse stops0 wT wD g in
  let g0 := initialRng warehouse stops0 g in
  exists s g' results best plan,
    evolve (iterNum s0) s0 g0 = Some (s, g')
    /\ Radash.sort_desc (population s) (fitnessOf s) = Some results
    /\ nth_error results 0 = Some best
    /\ solve Number_toString s0 g0 = Some (plan, g')
    /\ Forall2
         (fun route vr =>
            indices vr = 0%nat :: route ++ [0%nat]
            /\ Forall2 (fun idx path => nth_error (warehouse :: stops0) idx = Some path)
                 (indices vr) (paths vr)
            /\ (exists mid, paths vr = warehouse :: mid ++ [warehouse])
            /\ getRouteDistance s route = Some (distance vr)
            /\ driveTime vr = distance vr / 50
            /\ time vr = getRouteTime (distance vr)
            /\ googleMapUrl vr
               = ("https://www.google.com/maps/dir/"
                  ++ Spec.urlPath
                       (fun c => Number_toString (latitude c) ++ ","
                                 ++ Number_toString (longitude c))
                       (paths vr))%string)
         (decode s best) (routes plan).
Proof.
  intros s0 g0.
  destruct (solve_spec s0 g0 (initialSolver_wellFormed warehouse stops0 wT wD g))
    as (s & g' & results & best & r & out & Hev & _ & Hcfg & Hsort & Hbest & _
        & Hr & Hout & Hsolve).
  destruct (sameConfig_fields _ _ Hcfg) as (Hcoords & _).
  destruct (initialSolver_fields warehouse stops0 wT wD g) as (Hc0 & _).
  fold s0 in Hc0. rewrite Hc0 in Hcoords.
  destruct (getFitness_inv s best r Hr) as (_ & _ & Hroutes & _).
  exists s, g', results, best,
    (mkVRPSolve out (fit_totalDistance r) (fit_totalTime r)).
  repeat (split; [assumption | ]).
  rewrite <- Hroutes. cbn [routes].
  eapply Forall2_impl; [ | exact (buildRoutes_reports s _ _ Hout)].
  intros route vr (Hi & Hp & Hd & Hdt & Ht & Hu).
  rewrite Hcoords in Hp.
  split; [exact Hi | ].
  split; [apply mapM_Forall2; exact Hp | ].
  split; [rewrite Hi in Hp; exact (closed_path (warehouse :: stops0) warehouse _ _ eq_refl Hp) | ].
  split; [exact Hd | ]. split; [exact Hdt | ]. split; [exact Ht | exact Hu].
Qed.




End SolveProperties.


(* ================================================================== *)
(** * Coverage *)
(* ================================================================== *)

Lemma Permutation_filter {A : Type} (f : A -> bool) (l l' : list A) :
  Permutation l l' -> Permutation (filter f l) (filter f l').
Proof.
  induction 1 as [ | x l l' _ IH | x y l | l l' l'' _ IH1 _ IH2]; simpl.
  - constructor.
  - destruct (f x); [constructor | ]; exact IH.
  - destruct (f x), (f y); try reflexivity. apply perm_swap.
  - etransitivity; eassumption.
Qed.

Lemma filter_isStop_seq (n : nat) : filter isStop (seq 1 n) = seq 1 n.
Proof.
  apply forallb_filter_id. apply forallb_forall. intros x Hx.
  apply in_seq in Hx. destruct x; [lia | reflexivity].
Qed.

Lemma filter_isStop_zeros {A : Type} (l : list A) :
  filter isStop (map (fun _ => 0%nat) l) = [].
Proof. induction l as [ | x l IH]; simpl; [reflexivity | exact IH]. Qed.

Lemma baseIndividual_stops (s : VRPSolver) :
  (1 <= length (stops s))%nat ->
  (2 <= driverNum s)%nat ->
  filter isStop (baseIndividual s) = Spec.stopIndices (length (stops s))
  /\ length (baseIndividual s) = (length (stops s) + (driverNum s - 1))%nat.
Proof.
  intros HN HD. unfold baseIndividual, Radash.range.
  destruct (Nat.eqb (length (stops s)) 0) eqn:E; [apply Nat.eqb_eq in E; lia | ].
  rewrite map_id. replace (length (stops s) + 1 - 1)%nat with (length (stops s)) by lia.
  split.
  - rewrite filter_app, filter_isStop_seq, filter_isStop_zeros, app_nil_r. reflexivity.
  - rewrite length_app, length_seq, length_map, length_seq.
    destruct (Nat.eqb (driverNum s - 1) 0) eqn:E'; [apply Nat.eqb_eq in E' | ]; lia.
Qed.

(** As long as the individuals are no longer than [individualNum], the
    decoding of every individual of a well-formed solver is the splitting on
    markers, and its routes hold every stop index exactly once. *)
Lemma decode_covers_short (s : VRPSolver) (ind : Individual) :
  wellFormed s ->
  (1 <= length (stops s))%nat ->
  (2 <= driverNum s)%nat ->
  (length (stops s) + (driverNum s - 1) <= individualNum s)%nat ->
  In ind (population s) ->
  decode s ind = Spec.decode ind
  /\ Permutation (concat (decode s ind)) (Spec.stopIndices (length (stops s)))
  /\ NoDup (concat (decode s ind)).
Proof.
  intros Hwf HN HD Hshort Hin.
  pose proof (wf_individuals s Hwf) as Hall. rewrite Forall_forall in Hall.
  specialize (Hall _ Hin).
  destruct (baseIndividual_stops s HN HD) as [Hstops Hlen].
  assert (Hdec : decode s ind = Spec.decode ind).
  { apply decode_short. rewrite (Permutation_length Hall), Hlen. exact Hshort. }
  assert (Hperm : Permutation (concat (decode s ind))
                    (Spec.stopIndices (length (stops s)))).
  { rewrite Hdec, concat_spec_decode, <- Hstops. apply Permutation_filter. exact Hall. }
  split; [exact Hdec | ]. split; [exact Hperm | ].
  eapply Permutation_NoDup; [symmetry; exact Hperm | apply seq_NoDup].
Qed.

Lemma initLoop_first (s : VRPSolver) (n : nat) (g : Rng) :
  nth_error (fst (initLoop s (S n) [] g)) 0
  = Some (fst (Radash.shuffle (baseIndividual s) g)).
Proof.
  destruct (initLoop_spec s (S n) [] g) as (fresh & Hf & _ & _ & Hfirst).
  rewrite Hf. simpl. exact (Hfirst n eq_refl).
Qed.

(** C1, at 92 stops: the first individual of the initial population is a
    rearrangement of the stop indices 1..92 and nine markers, but the
    decoding loop stops at index [individualNum - 1 = 99], finds a marker
    there and never reads index 100: stop 92 is in no decoded route. *)
Theorem decode_omits_stop_beyond_individualNum :
  let s := fst (new_VRPSolver exampleDepot manyStops lateDraw) in
  nth_error (population s) 0 = Some strandedIndividual
  /\ Permutation strandedIndividual
       (Spec.stopIndices (length (stops s)) ++ repeat 0%nat (driverNum s - 1))
  /\ length strandedIndividual = (length (stops s) + driverNum s - 1)%nat
  /\ Spec.decode strandedIndividual = [seq 1 91; [92%nat]]
  /\ decode s strandedIndividual = [seq 1 91]
  /\ ~ In 92%nat (concat (decode s strandedIndividual)).
Proof.
  intros s.
  destruct (new_VRPSolver_fields exampleDepot manyStops lateDraw)
    as (_ & _ & Hdrv & _ & Hstops & Hnum & _).
  fold s in Hdrv, Hstops, Hnum.
  assert (Hdec : decode s strandedIndividual = [seq 1 91]).
  { unfold decode. rewrite Hnum. vm_compute. reflexivity. }
  split.
  { unfold s, new_VRPSolver, initPopulation.
    set (s0 := mkVRPSolver 1 1 10 (exampleDepot :: manyStops) manyStops [] 100 50 200).
    pose proof (initLoop_first s0 99 lateDraw) as Hfirst.
    change (individualNum s0) with 100%nat. change (population s0) with (@nil Individual).
    destruct (initLoop s0 100 [] lateDraw) as [pop g'].
    cbn [fst set_population population] in Hfirst |- *.
    rewrite Hfirst. f_equal.
    unfold baseIndividual. change (stops s0) with manyStops.
    change (driverNum s0) with 10%nat. unfold manyStops. rewrite repeat_length.
    vm_compute. reflexivity. }
  split.
  { rewrite Hstops, Hdrv. unfold manyStops. rewrite repeat_length.
    unfold strandedIndividual, Spec.stopIndices.
    change (seq 1 92) with (seq 1 91 ++ [92%nat]). rewrite <- app_assoc.
    apply Permutation_app_head. apply Permutation_app_comm. }
  split.
  { rewrite Hstops, Hdrv. unfold manyStops. rewrite repeat_length. reflexivity. }
  split; [vm_compute; reflexivity | ].
  split; [exact Hdec | ].
  rewrite Hdec. change (concat [seq 1 91]) with (seq 1 91 ++ []).
  rewrite app_nil_r. intros Hin.
  apply in_seq in Hin. lia.
Qed.

(** With at most 91 stops every individual of every generation decodes to
    routes that hold each stop index exactly once. *)
Lemma decode_covers_reachable
  (warehouse : Coord) (stops0 : list Coord) (wT wD : R) (g : Rng) (k : nat) :
  (1 <= length stops0 <= 91)%nat ->
  exists s gk,
    evolve k (initialSolver warehouse stops0 wT wD g) (initialRng warehouse stops0 g)
    = Some (s, gk)
    /\ Forall (fun ind =>
                 decode s ind = Spec.decode ind
                 /\ Permutation (concat (decode s ind))
                      (Spec.stopIndices (length stops0))
                 /\ NoDup (concat (decode s ind)))
              (population s).
Proof.
  intros HN.
  set (s0 := initialSolver warehouse stops0 wT wD g).
  destruct (evolve_spec k s0 (initialRng warehouse stops0 g)
              (initialSolver_wellFormed warehouse stops0 wT wD g))
    as (s & gk & Hev & Hwf & Hcfg).
  destruct (sameConfig_fields _ _ Hcfg) as (_ & Hstops & Hdrv & Hnum & _).
  destruct (initialSolver_fields warehouse stops0 wT wD g) as (_ & Hs0 & Hd0 & Hn0 & _).
  fold s0 in Hs0, Hd0, Hn0. rewrite Hs0 in Hstops. rewrite Hd0 in Hdrv.
  rewrite Hn0 in Hnum.
  exists s, gk. split; [exact Hev | ].
  apply Forall_forall. intros ind Hin. rewrite <- Hstops.
  apply decode_covers_short; try assumption; rewrite ?Hstops, ?Hdrv, ?Hnum; lia.
Qed.

(* ================================================================== *)
(** * The entry point *)
(* ================================================================== *)

(** [generate] runs [solve] on the solver of the constructor with the
    weights of the mode. *)
Lemma generate_initialSolver (Number_toString : R -> string)
  (formData : PlanInput) (g : Rng) :
  generate Number_toString formData g =
  let (wT, wD) := modeWeights (mode formData) in
  solve Number_toString
    (initialSolver (warehouse formData) (input_stops formData) wT wD g)
    (initialRng (warehouse formData) (input_stops formData) g).
Proof.
  unfold generate, initialSolver, initialRng, new_VRPSolver, initPopulation.
  destruct (initLoop _ _ _ _) as [pop g'].
  destruct (mode formData); reflexivity.
Qed.

(* ================================================================== *)
(** * More on the geometry *)
(* ================================================================== *)

Lemma Rabs_between (t c : R) : Rabs t <= c -> - c <= t <= c.
Proof.
  intros H. pose proof (Rle_abs t) as H1. pose proof (Rle_abs (- t)) as H2.
  rewrite Rabs_Ropp in H2. lra.
Qed.

Lemma arc_of_sin_sqr (t : R) :
  - (PI / 2) <= t <= PI / 2 ->
  Math_atan2 (sqrt (sin t * sin t)) (sqrt (1 - sin t * sin t)) = Rabs t.
Proof.
  intros [Hlo Hhi]. pose proof PI_RGT_0 as Hpi.
  assert (Hcos2 : 1 - sin t * sin t = (cos t)²).
  { pose proof (sin2_cos2 t) as H. unfold Rsqr in *. lra. }
  rewrite Hcos2, sqrt_Rsqr_abs.
  change (sin t * sin t) with (sin t)². rewrite sqrt_Rsqr_abs.
  destruct (Req_dec t (PI / 2)) as [-> | Hne1].
  { rewrite cos_PI2, sin_PI2, Rabs_R0, Rabs_R1, (Rabs_pos_eq (PI / 2)) by lra.
    unfold Math_atan2.
    destruct (Rlt_dec 0 0) as [H | _]; [lra | ].
    destruct (Rlt_dec 0 1) as [_ | H]; [reflexivity | lra]. }
  destruct (Req_dec t (- (PI / 2))) as [-> | Hne2].
  { rewrite cos_neg, sin_neg, cos_PI2, sin_PI2, Rabs_R0, !Rabs_Ropp, Rabs_R1,
      (Rabs_pos_eq (PI / 2)) by lra.
    unfold Math_atan2.
    destruct (Rlt_dec 0 0) as [H | _]; [lra | ].
    destruct (Rlt_dec 0 1) as [_ | H]; [reflexivity | lra]. }
  assert (Hc : 0 < cos t) by (apply cos_gt_0; lra).
  rewrite (Rabs_pos_eq (cos t)) by lra.
  unfold Math_atan2. destruct (Rlt_dec 0 (cos t)) as [_ | H]; [ | contradiction].
  destruct (Rle_dec 0 t) as [Hpos | Hneg].
  - assert (Hs : 0 <= sin t) by (apply sin_ge_0; lra).
    rewrite (Rabs_pos_eq (sin t)), (Rabs_pos_eq t) by assumption.
    change (sin t / cos t) with (tan t). apply atan_tan. lra.
  - assert (Hs : sin t <= 0).
    { pose proof (sin_ge_0 (- t)) as H. rewrite sin_neg in H. lra. }
    rewrite (Rabs_left1 (sin t)) by exact Hs. rewrite (Rabs_left1 t) by lra.
    rewrite <- sin_neg, <- (cos_neg t).
    change (sin (- t) / cos (- t)) with (tan (- t)). apply atan_tan. lra.
Qed.

(** X2. Between two coordinates of the same longitude, at most 180 degrees
    of latitude apart, the distance is the arc of the meridian: 6371 km
    times the difference of latitude in radians. *)
Theorem haversineDistance_along_meridian (a b : Coord) :
  longitude a = longitude b ->
  Rabs (latitude b - latitude a) <= 180 ->
  haversineDistance a b = 6371 * (PI / 180) * Rabs (latitude b - latitude a).
Proof.
  intros Hlon Hlat. pose proof PI_RGT_0 as Hpi. unfold haversineDistance.
  rewrite Hlon.
  replace (toRadians (longitude b - longitude b) / 2) with 0
    by (unfold toRadians; field).
  rewrite sin_0.
  set (t := toRadians (latitude b - latitude a) / 2).
  replace (sin t * sin t
           + cos (toRadians (latitude a)) * cos (toRadians (latitude b)) * 0 * 0)
    with (sin t * sin t) by ring.
  assert (Ht : Rabs t = PI / 360 * Rabs (latitude b - latitude a)).
  { unfold t, toRadians.
    replace ((latitude b - latitude a) * PI / 180 / 2)
      with (PI / 360 * (latitude b - latitude a)) by field.
    rewrite Rabs_mult, (Rabs_pos_eq (PI / 360)) by lra. reflexivity. }
  rewrite arc_of_sin_sqr.
  - rewrite Ht. field.
  - apply Rabs_between. rewrite Ht. nra.
Qed.

Lemma haversineDistance_along_meridian_witness :
  longitude exampleDepot = longitude exampleStop
  /\ Rabs (latitude exampleStop - latitude exampleDepot) <= 180
  /\ haversineDistance exampleDepot exampleStop
     = 6371 * (PI / 180) * Rabs (latitude exampleStop - latitude exampleDepot).
Proof.
  assert (H1 : longitude exampleDepot = longitude exampleStop) by reflexivity.
  assert (H2 : Rabs (latitude exampleStop - latitude exampleDepot) <= 180).
  { simpl. rewrite Rabs_pos_eq; lra. }
  split; [exact H1 | ]. split; [exact H2 | ].
  exact (haversineDistance_along_meridian exampleDepot exampleStop H1 H2).
Defined.

(** X3. Between two coordinates on the equator, at most 180 degrees of
    longitude apart, the distance is the arc of the equator. *)
Theorem haversineDistance_along_equator (a b : Coord) :
  latitude a = 0 -> latitude b = 0 ->
  Rabs (longitude b - longitude a) <= 180 ->
  haversineDistance a b = 6371 * (PI / 180) * Rabs (longitude b - longitude a).
Proof.
  intros Ha Hb Hlon. pose proof PI_RGT_0 as Hpi. unfold haversineDistance.
  rewrite Ha, Hb.
  replace (toRadians (0 - 0) / 2) with 0 by (unfold toRadians; field).
  replace (toRadians 0) with 0 by (unfold toRadians; field).
  rewrite sin_0, cos_0.
  set (t := toRadians (longitude b - longitude a) / 2).
  replace (0 * 0 + 1 * 1 * sin t * sin t) with (sin t * sin t) by ring.
  assert (Ht : Rabs t = PI / 360 * Rabs (longitude b - longitude a)).
  { unfold t, toRadians.
    replace ((longitude b - longitude a) * PI / 180 / 2)
      with (PI / 360 * (longitude b - longitude a)) by field.
    rewrite Rabs_mult, (Rabs_pos_eq (PI / 360)) by lra. reflexivity. }
  rewrite arc_of_sin_sqr.
  - rewrite Ht. field.
  - apply Rabs_between. rewrite Ht. nra.
Qed.

Lemma haversineDistance_along_equator_witness :
  latitude exampleDepot = 0 /\ latitude (mkCoord 90 0) = 0
  /\ Rabs (longitude (mkCoord 90 0) - longitude exampleDepot) <= 180
  /\ haversineDistance exampleDepot (mkCoord 90 0)
     = 6371 * (PI / 180) * Rabs (longitude (mkCoord 90 0) - longitude exampleDepot).
Proof.
  assert (H1 : latitude exampleDepot = 0) by reflexivity.
  assert (H2 : latitude (mkCoord 90 0) = 0) by reflexivity.
  assert (H3 : Rabs (longitude (mkCoord 90 0) - longitude exampleDepot) <= 180).
  { simpl. rewrite Rabs_pos_eq; lra. }
  split; [exact H1 | ]. split; [exact H2 | ]. split; [exact H3 | ].
  exact (haversineDistance_along_equator exampleDepot (mkCoord 90 0) H1 H2 H3).
Defined.

(* ================================================================== *)
(** * More on the cost model *)
(* ================================================================== *)

Lemma getRouteTime_rest (d : R) :
  0 <= d -> getRouteTime d = d / 50 + 16 * IZR (Zfloor (d / 400)).
Proof.
  intros Hd. rewrite (getRouteTime_nonneg d Hd). unfold Spec.routeTime, Spec.modulo.
  replace (d / 50 / 8) with (d / 400) by field. ring.
Qed.

(** X4. For a distance [d >= 0] the elapsed time is the drive time plus 16
    hours of rest for every completed block of 400 km; it is never less
    than the drive time, equals it below 400 km, and does not decrease when
    the distance grows. *)
Theorem getRouteTime_rest_days (d : R) :
  0 <= d ->
  getRouteTime d = d / 50 + 16 * IZR (Zfloor (d / 400))
  /\ d / 50 <= getRouteTime d
  /\ (d < 400 -> getRouteTime d = d / 50)
  /\ (forall d', d <= d' -> getRouteTime d <= getRouteTime d').
Proof.
  intros Hd. pose proof (getRouteTime_rest d Hd) as E.
  assert (Hf : (0 <= Zfloor (d / 400))%Z).
  { apply (Zfloor_lub 0). simpl. unfold Rdiv. nra. }
  apply IZR_le in Hf.
  split; [exact E | ]. split; [rewrite E; simpl in Hf; lra | ]. split.
  - intros Hlt. rewrite E, (Zfloor_eq 0) by (simpl; lra). simpl. ring.
  - intros d' Hle. rewrite E, (getRouteTime_rest d') by lra.
    assert (Hm : (Zfloor (d / 400) <= Zfloor (d' / 400))%Z) by (apply Zfloor_le; lra).
    apply IZR_le in Hm. lra.
Qed.

Lemma getRouteTime_rest_days_witness :
  0 <= 1000
  /\ getRouteTime 1000 = 1000 / 50 + 16 * IZR (Zfloor (1000 / 400))
  /\ 1000 / 50 <= getRouteTime 1000.
Proof.
  assert (H : 0 <= 1000) by lra.
  destruct (getRouteTime_rest_days 1000 H) as (E & Hle & _).
  split; [exact H | ]. split; [exact E | exact Hle].
Defined.

(* ================================================================== *)
(** * Decoding individuals of any length *)
(* ================================================================== *)

Lemma scanRuns_acc (l : list nat) :
  forall closed open,
    scanRuns l closed open
    = (closed ++ fst (scanRuns l [] open), snd (scanRuns l [] open)).
Proof.
  induction l as [ | x l IH]; intros closed open.
  - simpl. rewrite app_nil_r. reflexivity.
  - destruct x as [ | x']; cbn [scanRuns].
    + rewrite (IH (closed ++ [open])), (IH ([] ++ [open])). cbn [fst snd].
      rewrite <- app_assoc. reflexivity.
    + apply IH.
Qed.

Lemma scanRuns_runs (l : list nat) :
  forall open,
    Spec.runs l open = fst (scanRuns l [] open) ++ [snd (scanRuns l [] open)].
Proof.
  induction l as [ | x l IH]; intros open; [reflexivity | ].
  destruct x as [ | x']; cbn [Spec.runs scanRuns].
  - rewrite IH, (scanRuns_acc l ([] ++ [open])). reflexivity.
  - apply IH.
Qed.

Lemma scanRuns_markers (l : list nat) :
  forall open, length (fst (scanRuns l [] open)) = markers l.
Proof.
  unfold markers. induction l as [ | x l IH]; intros open; [reflexivity | ].
  destruct x as [ | x']; cbn [scanRuns].
  - rewrite scanRuns_acc. cbn [fst]. rewrite length_app, IH. reflexivity.
  - rewrite IH. simpl. reflexivity.
Qed.

Lemma scanRuns_concat (l : list nat) :
  forall open,
    concat (fst (scanRuns l [] open)) ++ snd (scanRuns l [] open)
    = open ++ filter isStop l.
Proof.
  induction l as [ | x l IH]; intros open.
  - simpl. rewrite app_nil_r. reflexivity.
  - destruct x as [ | x']; cbn [scanRuns].
    + rewrite scanRuns_acc. cbn [fst snd]. rewrite concat_app, <- app_assoc, IH.
      simpl. rewrite app_nil_r. reflexivity.
    + rewrite IH, <- app_assoc. reflexivity.
Qed.

(** The loop over a stretch [mid] of the individual, started behind the
    marker at [p - 1]. *)
Lemma decode_loop_scan (l : Individual) (mid : list nat) :
  forall (pre rest : list nat) (closed : list (list nat)) (p : nat),
    l = pre ++ mid ++ rest ->
    (p <= length pre)%nat ->
    Forall (fun x => x <> 0%nat) (skipn p pre) ->
    (p = 0%nat \/ nth_error l (p - 1) = Some 0%nat) ->
    exists p',
      fold_left (decodeStep l) (seq (length pre) (length mid))
        (filter nonEmpty closed, (Z.of_nat p - 1)%Z)
      = (filter nonEmpty (fst (scanRuns mid closed (skipn p pre))),
         (Z.of_nat p' - 1)%Z)
      /\ (p' <= length (pre ++ mid))%nat
      /\ snd (scanRuns mid closed (skipn p pre)) = skipn p' (pre ++ mid)
      /\ Forall (fun x => x <> 0%nat) (skipn p' (pre ++ mid))
      /\ (p' = 0%nat \/ nth_error l (p' - 1) = Some 0%nat).
Proof.
  induction mid as [ | x mid IH]; intros pre rest closed p Hl Hp Hopen Hmark.
  - exists p. rewrite app_nil_r. simpl. repeat split; assumption.
  - assert (Hnth : nth_error l (length pre) = Some x).
    { subst l. rewrite nth_error_app2 by lia. rewrite Nat.sub_diag. reflexivity. }
    assert (Hl' : l = (pre ++ [x]) ++ mid ++ rest).
    { rewrite Hl, <- app_assoc. reflexivity. }
    assert (Hlen : length (pre ++ [x]) = S (length pre))
      by (rewrite length_app; simpl; lia).
    assert (Happ : (pre ++ [x]) ++ mid = pre ++ x :: mid)
      by (rewrite <- app_assoc; reflexivity).
    cbn [length seq fold_left]. rewrite <- Hlen.
    destruct x as [ | x'].
    + rewrite (decodeStep_marker _ _ _ _ Hnth).
      replace (Z.of_nat p - 1 + 1)%Z with (Z.of_nat p) by lia.
      replace (slice l (Z.of_nat p) (Z.of_nat (length pre))) with (skipn p pre)
        by (rewrite Hl; symmetry; apply slice_prefix; exact Hp).
      replace (if (0 <? length (skipn p pre))%nat
               then filter nonEmpty closed ++ [skipn p pre]
               else filter nonEmpty closed)
        with (filter nonEmpty (closed ++ [skipn p pre])).
      2:{ rewrite filter_app. cbn [filter]. unfold nonEmpty at 2.
          destruct (0 <? length (skipn p pre))%nat;
            [reflexivity | apply app_nil_r]. }
      replace (Z.of_nat (length pre)) with (Z.of_nat (length (pre ++ [0%nat])) - 1)%Z
        by lia.
      destruct (IH (pre ++ [0%nat]) rest (closed ++ [skipn p pre])
                  (length (pre ++ [0%nat])) Hl' (Nat.le_refl _))
        as (p' & Hfold & Hp' & Hsnd & Hall & Hm').
      * rewrite skipn_all. constructor.
      * right. rewrite Hlen. simpl. rewrite Nat.sub_0_r. exact Hnth.
      * rewrite skipn_all in Hfold, Hsnd. rewrite Happ in Hp', Hsnd, Hall.
        exists p'. cbn [scanRuns]. repeat split; assumption.
    + rewrite (decodeStep_stop _ _ _ _ Hnth).
      assert (Hskip : skipn p (pre ++ [S x']) = skipn p pre ++ [S x']).
      { rewrite skipn_app. replace (p - length pre)%nat with 0%nat by lia.
        reflexivity. }
      destruct (IH (pre ++ [S x']) rest closed p Hl') as (p' & Hfold & Hp' & Hsnd & Hall & Hm').
      * lia.
      * rewrite Hskip. apply Forall_app. split; [exact Hopen | ].
        constructor; [discriminate | constructor].
      * exact Hmark.
      * rewrite Hskip in Hfold, Hsnd. rewrite Happ in Hp', Hsnd, Hall.
        exists p'. cbn [scanRuns]. repeat split; assumption.
Qed.

(** The decoding of [getFitness] on any individual: the runs of the first
    [individualNum] entries; what lies behind them is dropped when entry
    [individualNum - 1] is a marker and glued to the open run otherwise. *)
Lemma decode_scanRuns (s : VRPSolver) (l : Individual) :
  (0 < individualNum s)%nat ->
  decode s l =
  filter nonEmpty
    (fst (scanRuns (firstn (individualNum s) l) [] [])
     ++ [snd (scanRuns (firstn (individualNum s) l) [] [])
         ++ match nth_error l (individualNum s - 1) with
            | Some O => []
            | _ => skipn (individualNum s) l
            end]).
Proof.
  intros Hn. set (n := individualNum s) in *.
  set (mid := firstn n l). set (rest := skipn n l).
  assert (Hl : l = [] ++ mid ++ rest) by (symmetry; apply firstn_skipn).
  assert (Hmid : length mid = Nat.min n (length l)) by apply length_firstn.
  destruct (decode_loop_scan l mid [] rest [] 0 Hl (Nat.le_0_l _) (Forall_nil _)
              (or_introl eq_refl))
    as (p' & Hfold & Hp' & Hsnd & Hall & Hm').
  cbn [app length skipn filter] in Hfold, Hp', Hsnd, Hall.
  change (Z.of_nat 0 - 1)%Z with (-1)%Z in Hfold.
  unfold decode. fold n.
  replace (seq 0 n) with (seq 0 (length mid) ++ seq (length mid) (n - length mid))
    by (rewrite <- seq_app; f_equal; lia).
  rewrite fold_left_app, Hfold.
  assert (Hrest : forall st,
             fold_left (decodeStep l) (seq (length mid) (n - length mid)) st = st).
  { intros st. destruct (Nat.le_gt_cases n (length l)) as [Hle | Hgt].
    - replace (n - length mid)%nat with 0%nat by lia. reflexivity.
    - apply decode_loop_out_of_range. lia. }
  rewrite Hrest.
  destruct (scanRuns mid [] []) as [closed open] eqn:Hscan. cbn [fst snd] in *.
  replace (Z.of_nat p' - 1 + 1)%Z with (Z.of_nat p') by lia.
  assert (Hp'l : (p' <= length l)%nat) by lia.
  rewrite sliceFrom_skipn by exact Hp'l.
  assert (Htail : skipn p' l = open ++ rest).
  { replace (skipn p' l) with (skipn p' (mid ++ rest))
      by (f_equal; apply firstn_skipn).
    rewrite skipn_app, Hsnd.
    replace (p' - length mid)%nat with 0%nat by lia. reflexivity. }
  rewrite filter_app. cbn [filter].
  destruct (Z.of_nat p' - 1 =? Z.of_nat n - 1)%Z eqn:E; cbn [negb].
  - (* the loop stopped on a marker at entry n - 1 *)
    apply Z.eqb_eq in E. assert (p' = n) by lia. subst p'.
    destruct Hm' as [H0 | Hm']; [lia | ]. rewrite Hm'.
    assert (Ho : open = []) by (rewrite Hsnd; apply skipn_all2; lia).
    rewrite Ho. simpl. rewrite app_nil_r. reflexivity.
  - apply Z.eqb_neq in E. assert (Hne : p' <> n) by lia.
    assert (Hnm : nth_error l (n - 1) <> Some 0%nat).
    { intros Hz.
      assert (Hlt : (n - 1 < length l)%nat) by (apply nth_error_Some; rewrite Hz; discriminate).
      assert (Hin : nth_error (skipn p' mid) (n - 1 - p') = Some 0%nat).
      { rewrite nth_error_skipn. replace (p' + (n - 1 - p'))%nat with (n - 1)%nat by lia.
        unfold mid. rewrite nth_error_firstn.
        destruct (n - 1 <? n)%nat eqn:El; [exact Hz | apply Nat.ltb_ge in El; lia]. }
      apply nth_error_In in Hin. rewrite Forall_forall in Hall.
      exact (Hall _ Hin eq_refl). }
    assert (Hun : match nth_error l (n - 1) with Some O => [] | _ => rest end = rest).
    { destruct (nth_error l (n - 1)) as [[ | ?] | ]; try reflexivity.
      exfalso. apply Hnm. reflexivity. }
    rewrite Hun, Htail.
    change (nonEmpty (open ++ rest)) with (0 <? length (open ++ rest))%nat.
    destruct (0 <? length (open ++ rest))%nat;
      [reflexivity | symmetry; apply app_nil_r].
Qed.

Lemma filter_nonEmpty_Forall (xs : list (list nat)) :
  Forall (fun r => r <> []) (filter nonEmpty xs).
Proof.
  apply Forall_forall. intros r Hr. apply filter_In in Hr. destruct Hr as [_ Hne].
  intros ->. discriminate.
Qed.

Lemma filter_nonEmpty_snoc (xs : list (list nat)) (r : list nat) :
  r <> [] -> filter nonEmpty (xs ++ [r]) = filter nonEmpty xs ++ [r].
Proof.
  intros Hr. rewrite filter_app. cbn [filter].
  destruct r; [contradiction | reflexivity].
Qed.

Lemma decode_length_le (s : VRPSolver) (l : Individual) :
  (0 < individualNum s)%nat ->
  (length (decode s l) <= markers (firstn (individualNum s) l) + 1)%nat.
Proof.
  intros Hn. rewrite (decode_scanRuns s l Hn).
  etransitivity; [apply filter_length_le | ].
  rewrite length_app, scanRuns_markers. simpl. lia.
Qed.

Lemma decode_not_nil (s : VRPSolver) (l : Individual) :
  (0 < individualNum s)%nat ->
  filter isStop (firstn (individualNum s) l) <> [] ->
  decode s l <> [].
Proof.
  intros Hn Hstop. rewrite (decode_scanRuns s l Hn).
  pose proof (scanRuns_concat (firstn (individualNum s) l) []) as Hc.
  rewrite app_nil_l in Hc.
  destruct (scanRuns (firstn (individualNum s) l) [] []) as [closed open].
  cbn [fst snd] in *. rewrite filter_app.
  intros Hnil. apply app_eq_nil in Hnil. destruct Hnil as [Hclosed Hopen].
  apply Hstop. rewrite <- Hc.
  assert (Ho : open = []).
  { destruct open as [ | x open]; [reflexivity | discriminate Hopen]. }
  assert (Hcl : concat closed = []).
  { clear - Hclosed. induction closed as [ | r closed IH]; [reflexivity | ].
    simpl in Hclosed. destruct r as [ | x r]; [exact (IH Hclosed) | discriminate]. }
  rewrite Ho, Hcl. reflexivity.
Qed.

(** X5. The decoding of an individual of any length, case by case. *)
Theorem decode_any_length (s : VRPSolver) (l : Individual) :
  (0 < individualNum s)%nat ->
  ((length l <= individualNum s)%nat -> decode s l = Spec.decode l)
  /\ (nth_error l (individualNum s - 1) = Some 0%nat ->
      decode s l = Spec.decode (firstn (individualNum s) l))
  /\ ((individualNum s < length l)%nat ->
      nth_error l (individualNum s - 1) <> Some 0%nat ->
      exists closed open,
        Spec.runs (firstn (individualNum s) l) [] = closed ++ [open]
        /\ decode s l
           = filter nonEmpty closed ++ [open ++ skipn (individualNum s) l]).
Proof.
  intros Hn. split; [apply decode_short | ].
  pose proof (decode_scanRuns s l Hn) as Hd.
  pose proof (scanRuns_runs (firstn (individualNum s) l) []) as Hr.
  destruct (scanRuns (firstn (individualNum s) l) [] []) as [closed open].
  cbn [fst snd] in *. split.
  - intros Hz. rewrite Hz, app_nil_r in Hd. rewrite Hd.
    unfold Spec.decode. rewrite Hr. reflexivity.
  - intros Hlong Hnz. exists closed, open. split; [exact Hr | ].
    rewrite Hd.
    replace (match nth_error l (individualNum s - 1) with
             | Some O => []
             | _ => skipn (individualNum s) l
             end) with (skipn (individualNum s) l).
    + apply filter_nonEmpty_snoc. intros Hnil. apply app_eq_nil in Hnil.
      destruct Hnil as [_ Hs]. apply (f_equal (@length nat)) in Hs.
      rewrite length_skipn in Hs. simpl in Hs. lia.
    + destruct (nth_error l (individualNum s - 1)) as [[ | ?] | ]; try reflexivity.
      exfalso. apply Hnz. reflexivity.
Qed.

Lemma decode_any_length_witness :
  (0 < individualNum exampleSolver)%nat
  /\ (length exampleIndividual <= individualNum exampleSolver)%nat
  /\ decode exampleSolver exampleIndividual = Spec.decode exampleIndividual.
Proof.
  assert (H0 : (0 < individualNum exampleSolver)%nat) by (simpl; lia).
  assert (H1 : (length exampleIndividual <= individualNum exampleSolver)%nat)
    by (simpl; lia).
  split; [exact H0 | ]. split; [exact H1 | ].
  exact (proj1 (decode_any_length exampleSolver exampleIndividual H0) H1).
Defined.

(** X6. Whatever the individual, no decoded route is empty, every entry of
    a decoded route is an entry of the individual, there is at most one
    route more than there are markers among the first [individualNum]
    entries, and there is a route as soon as one of these entries is a
    stop. *)
Theorem decode_routes_shape (s : VRPSolver) (l : Individual) :
  (0 < individualNum s)%nat ->
  Forall (fun r => r <> [] /\ incl r l) (decode s l)
  /\ (length (decode s l) <= markers (firstn (individualNum s) l) + 1)%nat
  /\ (filter isStop (firstn (individualNum s) l) <> [] -> decode s l <> []).
Proof.
  intros Hn. split; [ | split].
  - pose proof (decode_incl s l) as Hincl.
    assert (Hne : Forall (fun r => r <> []) (decode s l)).
    { rewrite (decode_scanRuns s l Hn). apply filter_nonEmpty_Forall. }
    rewrite Forall_forall in *. intros r Hr. split; [apply Hne | apply Hincl]; exact Hr.
  - apply decode_length_le. exact Hn.
  - apply decode_not_nil. exact Hn.
Qed.

Lemma decode_routes_shape_witness :
  (0 < individualNum exampleSolver)%nat
  /\ (length (decode exampleSolver exampleIndividual)
      <= markers (firstn (individualNum exampleSolver) exampleIndividual) + 1)%nat.
Proof.
  assert (H0 : (0 < individualNum exampleSolver)%nat) by (simpl; lia).
  split; [exact H0 | ].
  exact (proj1 (proj2 (decode_routes_shape exampleSolver exampleIndividual H0))).
Defined.

(** ** Encoding routes and decoding them again *)

Lemma runs_app_stops (r l run : list nat) :
  ~ In 0%nat r -> Spec.runs (r ++ l) run = Spec.runs l (run ++ r).
Proof.
  revert run. induction r as [ | x r IH]; intros run Hr.
  - rewrite app_nil_r. reflexivity.
  - destruct x as [ | x']; [exfalso; apply Hr; left; reflexivity | ].
    cbn [app Spec.runs]. rewrite IH by (intros H; apply Hr; right; exact H).
    rewrite <- app_assoc. reflexivity.
Qed.

Lemma decode_joinRoutes_runs (rs : list (list nat)) :
  Forall properRoute rs ->
  forall run,
    filter nonEmpty (Spec.runs (joinRoutes rs) run)
    = match rs with
      | [] => filter nonEmpty [run]
      | r :: rest => (run ++ r) :: rest
      end.
Proof.
  induction 1 as [ | r rs [Hne Hnz] Hrs IH]; intros run; [reflexivity | ].
  assert (Hkeep : nonEmpty (run ++ r) = true).
  { unfold nonEmpty. rewrite length_app. destruct r; [contradiction | ].
    simpl. apply Nat.ltb_lt. lia. }
  destruct rs as [ | r2 rest].
  - cbn [joinRoutes]. rewrite <- (app_nil_r r) at 1.
    rewrite runs_app_stops by exact Hnz. cbn [Spec.runs filter].
    rewrite Hkeep. reflexivity.
  - change (joinRoutes (r :: r2 :: rest))
      with (r ++ 0%nat :: joinRoutes (r2 :: rest)).
    rewrite runs_app_stops by exact Hnz. cbn [Spec.runs filter].
    rewrite Hkeep, IH. reflexivity.
Qed.

(** X7. Decoding is a left inverse of the encoding: routes with at least
    one stop and no marker, written one after the other with a marker in
    between, decode to themselves as long as the individual is no longer
    than [individualNum]. *)
Theorem decode_joinRoutes (s : VRPSolver) (rs : list (list nat)) :
  Forall properRoute rs ->
  (length (joinRoutes rs) <= individualNum s)%nat ->
  decode s (joinRoutes rs) = rs.
Proof.
  intros Hrs Hlen. rewrite decode_short by exact Hlen.
  unfold Spec.decode. fold nonEmpty. rewrite (decode_joinRoutes_runs rs Hrs).
  destruct rs; reflexivity.
Qed.

Lemma decode_joinRoutes_witness :
  Forall properRoute [[1; 2]; [3]]%nat
  /\ (length (joinRoutes [[1; 2]; [3]]%nat) <= individualNum exampleSolver)%nat
  /\ decode exampleSolver (joinRoutes [[1; 2]; [3]]%nat) = [[1; 2]; [3]]%nat.
Proof.
  assert (H1 : Forall properRoute [[1; 2]; [3]]%nat).
  { repeat constructor; try discriminate; simpl; intuition discriminate. }
  assert (H2 : (length (joinRoutes [[1; 2]; [3]]%nat) <= individualNum exampleSolver)%nat)
    by (simpl; lia).
  split; [exact H1 | ]. split; [exact H2 | ].
  exact (decode_joinRoutes exampleSolver _ H1 H2).
Defined.

(* ================================================================== *)
(** * Individuals, selection and mutation *)
(* ================================================================== *)

Lemma map_const_seq (a n : nat) :
  map (fun _ : nat => 0%nat) (seq a n) = repeat 0%nat n.
Proof.
  revert a. induction n as [ | n IH]; intros a; [reflexivity | ].
  simpl. f_equal. apply IH.
Qed.

Lemma baseIndividual_explicit (s : VRPSolver) :
  (1 <= length (stops s))%nat ->
  (2 <= driverNum s)%nat ->
  baseIndividual s
  = Spec.stopIndices (length (stops s)) ++ repeat 0%nat (driverNum s - 1).
Proof.
  intros HN HD. unfold baseIndividual, Radash.range, Spec.stopIndices.
  destruct (Nat.eqb (length (stops s)) 0) eqn:E; [apply Nat.eqb_eq in E; lia | ].
  destruct (Nat.eqb (driverNum s - 1) 0) eqn:E'; [apply Nat.eqb_eq in E'; lia | ].
  rewrite map_id, map_const_seq.
  replace (length (stops s) + 1 - 1)%nat with (length (stops s)) by lia.
  replace (driverNum s - 1 + 1 - 1)%nat with (driverNum s - 1)%nat by lia.
  reflexivity.
Qed.

(** The states that [solve] goes through when it starts from the
    constructor. *)
Lemma reachable_spec
  (warehouse : Coord) (stops0 : list Coord) (wT wD : R) (g : Rng) (k : nat) :
  exists s gk,
    evolve k (initialSolver warehouse stops0 wT wD g) (initialRng warehouse stops0 g)
    = Some (s, gk)
    /\ wellFormed s
    /\ coords s = warehouse :: stops0 /\ stops s = stops0
    /\ driverNum s = 10%nat /\ individualNum s = 100%nat
    /\ selectedNum s = 50%nat
    /\ weightTime s = wT /\ weightDistance s = wD.
Proof.
  set (s0 := initialSolver warehouse stops0 wT wD g).
  destruct (evolve_spec k s0 (initialRng warehouse stops0 g)
              (initialSolver_wellFormed warehouse stops0 wT wD g))
    as (s & gk & Hev & Hwf & Hcfg).
  destruct (sameConfig_fields _ _ Hcfg)
    as (Hc & Hs & Hd & Hn & Hsel & _ & HwT & HwD).
  destruct (initialSolver_fields warehouse stops0 wT wD g)
    as (Hc0 & Hs0 & Hd0 & Hn0 & Hsel0 & _).
  fold s0 in Hc0, Hs0, Hd0, Hn0, Hsel0.
  exists s, gk. split; [exact Hev | ]. split; [exact Hwf | ].
  rewrite Hc, Hs, Hd, Hn, Hsel, HwT, HwD, Hc0, Hs0, Hd0, Hn0, Hsel0.
  repeat split.
Qed.

(** X8. In every generation every individual is a rearrangement of the stop
    indices 1..N and nine markers (with no stop at all: ten markers, one
    more than [driverNum - 1], since radash's [range (1, 0)] yields one
    element). *)
Theorem individuals_are_rearrangements
  (warehouse : Coord) (stops0 : list Coord) (wT wD : R) (g : Rng) (k : nat) :
  exists s gk,
    evolve k (initialSolver warehouse stops0 wT wD g) (initialRng warehouse stops0 g)
    = Some (s, gk)
    /\ Forall (fun ind =>
                 match stops0 with
                 | [] => ind = repeat 0%nat 10
                 | _ :: _ =>
                     Permutation ind
                       (Spec.stopIndices (length stops0) ++ repeat 0%nat 9)
                     /\ length ind = (length stops0 + 9)%nat
                     /\ markers ind = 9%nat
                     /\ NoDup (filter isStop ind)
                 end)
              (population s).
Proof.
  destruct (reachable_spec warehouse stops0 wT wD g k)
    as (s & gk & Hev & Hwf & _ & Hs & Hd & _).
  exists s, gk. split; [exact Hev | ].
  pose proof (wf_individuals s Hwf) as Hall.
  eapply Forall_impl; [ | exact Hall]. intros ind Hperm.
  destruct stops0 as [ | c stops1].
  - apply (Permutation_repeat 0%nat 10).
    unfold baseIndividual in Hperm. rewrite Hs, Hd in Hperm. exact Hperm.
  - rewrite baseIndividual_explicit in Hperm by (rewrite ?Hs, ?Hd; simpl; lia).
    rewrite Hs, Hd in Hperm. change (10 - 1)%nat with 9%nat in Hperm.
    split; [exact Hperm | ]. split.
    + rewrite (Permutation_length Hperm), length_app, repeat_length.
      unfold Spec.stopIndices. rewrite length_seq. reflexivity.
    + split.
      * unfold markers.
        rewrite (proj1 (Permutation_count_occ Nat.eq_dec _ _) Hperm 0%nat).
        rewrite count_occ_app, count_occ_repeat_eq by reflexivity.
        replace (count_occ Nat.eq_dec (Spec.stopIndices (length (c :: stops1))) 0%nat)
          with 0%nat; [reflexivity | ].
        symmetry. apply count_occ_not_In. unfold Spec.stopIndices.
        intros Hin. apply in_seq in Hin. lia.
      * eapply Permutation_NoDup;
          [symmetry; apply Permutation_filter; exact Hperm | ].
        rewrite filter_app. unfold Spec.stopIndices.
        rewrite filter_isStop_seq.
        replace (filter isStop (repeat 0%nat 9)) with (@nil nat) by reflexivity.
        rewrite app_nil_r. apply seq_NoDup.
Qed.

(** ** Selection *)





(** ** Mutation *)

Lemma mutation_nothing_to_do (s : VRPSolver) (g : Rng) :
  (individualNum s <= selectedNum s)%nat -> mutation s g = Some ([], g).
Proof.
  intros H. unfold mutation.
  replace (individualNum s - selectedNum s)%nat with 0%nat by lia. reflexivity.
Qed.

Lemma mutation_empty_population (s : VRPSolver) (g : Rng) :
  population s = [] -> (selectedNum s < individualNum s)%nat -> mutation s g = None.
Proof.
  intros Hpop H. unfold mutation.
  destruct (individualNum s - selectedNum s)%nat as [ | n] eqn:E; [lia | ].
  cbn [mutationLoop]. rewrite Hpop. reflexivity.
Qed.

(** X10. [mutation] on a non-empty population returns
    [individualNum - selectedNum] mutants, each a rearrangement of a member
    of the population; on an empty population it throws as soon as a mutant
    is due, and when no mutant is due it returns the empty list without
    reading the random source. *)
Theorem mutation_cases (s : VRPSolver) (g : Rng) :
  (population s <> [] ->
   exists mutations g',
     mutation s g = Some (mutations, g')
     /\ length mutations = (individualNum s - selectedNum s)%nat
     /\ Forall (fun m => exists src, In src (population s) /\ Permutation m src)
          mutations)
  /\ (population s = [] -> (selectedNum s < individualNum s)%nat ->
      mutation s g = None)
  /\ ((individualNum s <= selectedNum s)%nat -> mutation s g = Some ([], g)).
Proof.
  split; [ | split].
  - intros Hne.
    destruct (mutationLoop_spec s (individualNum s - selectedNum s) Hne [] g)
      as (fresh & g' & Hloop & Hlen & Hall).
    exists fresh, g'. repeat split; assumption.
  - apply mutation_empty_population.
  - apply mutation_nothing_to_do.
Qed.

(* ================================================================== *)
(** * Route distance *)
(* ================================================================== *)

Lemma mapM_Some_Forall {A B : Type} (f : A -> option B) (l : list A) (r : list B) :
  mapM f l = Some r -> Forall (fun a => exists b, f a = Some b) l.
Proof.
  intros H. apply mapM_Forall2 in H.
  induction H as [ | a b l r Hab _ IH]; constructor; [exists b; exact Hab | exact IH].
Qed.

(** X11. [getRouteDistance] returns a distance exactly when the coordinate
    table has a depot and every entry of the route is an index of the table
    (otherwise [haversineDistance] throws on an [undefined] coordinate); the
    distance is 0 for the empty route and twice the distance to the stop for
    a route of one stop. *)
Theorem getRouteDistance_cases (s : VRPSolver) (route : list nat) :
  ((exists d, getRouteDistance s route = Some d)
   <-> (0 < length (coords s))%nat /\ inRange s route)
  /\ (getRouteDistance s route = None
      <-> coords s = [] \/ exists i, In i route /\ (length (coords s) <= i)%nat)
  /\ (forall depot, nth_error (coords s) 0 = Some depot ->
      getRouteDistance s [] = Some 0
      /\ forall i c, nth_error (coords s) i = Some c ->
           getRouteDistance s [i] = Some (2 * haversineDistance depot c)).
Proof.
  assert (Hiff : (exists d, getRouteDistance s route = Some d)
                 <-> (0 < length (coords s))%nat /\ inRange s route).
  { split.
    + intros [d Hd]. rewrite getRouteDistance_pathLength in Hd.
      destruct (mapM (nth_error (coords s)) (0%nat :: route ++ [0%nat])) as [cs | ] eqn:E;
        [ | discriminate].
      apply mapM_Some_Forall in E. inversion E as [ | ? ? [c Hc] Hrest]; subst.
      split.
      * apply nth_error_Some. rewrite Hc. discriminate.
      * apply Forall_app in Hrest. destruct Hrest as [Hroute _].
        unfold inRange. eapply Forall_impl; [ | exact Hroute].
        intros i [ci Hi]. apply nth_error_Some. rewrite Hi. discriminate.
    + intros [H0 Hr]. apply getRouteDistance_total; assumption. }
  split; [exact Hiff | split].
  - split.
    + intros Hnone.
      destruct (coords s) as [ | c0 cs0] eqn:Ec; [left; reflexivity | right].
      destruct (Exists_dec (fun i => (length (c0 :: cs0) <= i)%nat) route) as [Hex | Hno].
      { intros i. destruct (le_dec (length (c0 :: cs0)) i); [left | right]; assumption. }
      * apply Exists_exists in Hex. exact Hex.
      * exfalso.
        assert (Hsome : exists d, getRouteDistance s route = Some d).
        { apply Hiff. rewrite ?Ec. split; [simpl; lia | ].
          unfold inRange. rewrite ?Ec. apply Forall_forall. intros i Hi.
          destruct (lt_dec i (length (c0 :: cs0))) as [Hlt | Hge]; [exact Hlt | ].
          exfalso. apply Hno. apply Exists_exists. exists i. split; [exact Hi | lia]. }
        destruct Hsome as [d Hd]. rewrite Hd in Hnone. discriminate.
    + intros Hbad.
      destruct (getRouteDistance s route) as [d | ] eqn:Hd; [exfalso | reflexivity].
      destruct (proj1 Hiff (ex_intro _ d eq_refl)) as [H0 Hr].
      destruct Hbad as [Hnil | (i & Hi & Hge)].
      * rewrite Hnil in H0. simpl in H0. lia.
      * unfold inRange in Hr. rewrite Forall_forall in Hr. specialize (Hr _ Hi). lia.
  - intros depot Hdepot. split.
    + unfold getRouteDistance. cbn [app]. rewrite routeLoop_cons2, Hdepot.
      cbn [bind routeLoop]. unfold getDistanceBetweenCoords.
      rewrite haversineDistance_refl. f_equal. ring.
    + intros i c Hc. unfold getRouteDistance. cbn [app].
      rewrite !routeLoop_cons2, Hdepot, Hc. cbn [bind routeLoop].
      rewrite Hc, Hdepot. cbn [bind]. unfold getDistanceBetweenCoords.
      rewrite (haversineDistance_sym c depot). f_equal. ring.
Qed.

(* ================================================================== *)
(** * The plan that [solve] returns *)
(* ================================================================== *)

Lemma markers_firstn_le (n : nat) (l : list nat) :
  (markers (firstn n l) <= markers l)%nat.
Proof.
  unfold markers. rewrite <- (firstn_skipn n l) at 2. rewrite count_occ_app. lia.
Qed.

Lemma markers_no_stop (l : list nat) :
  filter isStop l = [] -> markers l = length l.
Proof.
  unfold markers. induction l as [ | x l IH]; intros H; [reflexivity | ].
  destruct x as [ | x']; [ | discriminate]. simpl in *. f_equal. exact (IH H).
Qed.

(** An individual of a solver with at least one stop has a stop among its
    first 100 entries, and at most nine markers there. *)
Lemma stop_among_first_entries (ind : Individual) (N : nat) :
  (1 <= N)%nat ->
  Permutation ind (Spec.stopIndices N ++ repeat 0%nat 9) ->
  filter isStop (firstn 100 ind) <> [] /\ (markers (firstn 100 ind) <= 9)%nat.
Proof.
  intros HN Hperm.
  assert (Hm : markers ind = 9%nat).
  { unfold markers.
    rewrite (proj1 (Permutation_count_occ Nat.eq_dec _ _) Hperm 0%nat).
    rewrite count_occ_app, count_occ_repeat_eq by reflexivity.
    replace (count_occ Nat.eq_dec (Spec.stopIndices N) 0%nat) with 0%nat; [reflexivity | ].
    symmetry. apply count_occ_not_In. unfold Spec.stopIndices.
    intros Hin. apply in_seq in Hin. lia. }
  assert (Hlen : length ind = (N + 9)%nat).
  { rewrite (Permutation_length Hperm), length_app, repeat_length.
    unfold Spec.stopIndices. rewrite length_seq. reflexivity. }
  pose proof (markers_firstn_le 100 ind) as Hle. rewrite Hm in Hle.
  split; [ | exact Hle].
  intros Hnone. apply markers_no_stop in Hnone.
  rewrite length_firstn, Hlen in Hnone. lia.
Qed.

Lemma reachable_individual (s : VRPSolver) (ind : Individual) :
  wellFormed s -> driverNum s = 10%nat -> (1 <= length (stops s))%nat ->
  In ind (population s) ->
  Permutation ind (Spec.stopIndices (length (stops s)) ++ repeat 0%nat 9).
Proof.
  intros Hwf Hd HN Hin. pose proof (wf_individuals s Hwf) as Hall.
  rewrite Forall_forall in Hall. specialize (Hall _ Hin).
  rewrite baseIndividual_explicit in Hall by lia. rewrite Hd in Hall. exact Hall.
Qed.

Section PlanProperties.

Variable Number_toString : R -> string.

(** The routes built from the decoded routes of a fitness evaluation. *)
Lemma plan_routes (s : VRPSolver) (best : Individual) (r : FitnessResult)
  (out : list VRPRoute) :
  getFitness s best = Some r ->
  mapM (buildRoute Number_toString s) (fit_routes r) = Some out ->
  Forall2 (reports (coordText Number_toString) s) (decode s best) out
  /\ fit_totalDistance r = Spec.sum (map distance out)
  /\ fit_totalTime r = Spec.maximum (map time out).
Proof.
  intros Hr Hout.
  destruct (getFitness_inv s best r Hr) as (distances & Hd & Hroutes & Hsum & Hmax & _).
  pose proof (buildRoutes_reports Number_toString s _ _ Hout) as Hrep.
  rewrite Hroutes in Hrep. rewrite <- Hroutes in Hd.
  rewrite Hroutes in Hd.
  destruct (reports_distances Number_toString s _ _ _ Hrep Hd) as [E1 E2].
  split; [exact Hrep | ]. split; [rewrite E1; exact Hsum | ].
  rewrite E2; exact Hmax.
Qed.

(** The plan assembled from a population whose individuals hold at least
    one stop. *)
Lemma assemble_plan_shape (s : VRPSolver) :
  wellFormed s -> driverNum s = 10%nat -> individualNum s = 100%nat ->
  (1 <= length (stops s))%nat ->
  exists plan,
    assemble Number_toString s = Some plan
    /\ (1 <= length (routes plan) <= 10)%nat
    /\ Forall (fun vr => (3 <= length (indices vr))%nat) (routes plan)
    /\ totalTime plan <> None
    /\ exists vr, In vr (routes plan) /\ totalTime plan = Some (time vr).
Proof.
  intros Hwf Hd Hn HN.
  destruct (assemble_spec Number_toString s Hwf)
    as (results & best & r & out & _ & _ & Hin & Hr & Hout & Hasm).
  pose proof (reachable_individual s best Hwf Hd HN Hin) as Hperm.
  destruct (stop_among_first_entries best _ HN Hperm) as [Hstop Hmark].
  assert (Hn0' : (0 < individualNum s)%nat) by lia.
  pose proof (decode_length_le s best Hn0') as Hcount.
  pose proof (decode_not_nil s best Hn0') as Hnonnil.
  rewrite Hn in Hcount, Hnonnil. specialize (Hnonnil Hstop).
  destruct (plan_routes s best r out Hr Hout) as (Hrep & Hdist & Htime).
  pose proof (Forall2_length Hrep) as Hlen.
  assert (Hout_ne : out <> []).
  { intros ->. destruct (decode s best); [contradiction | discriminate]. }
  assert (Hne : Forall (fun route => route <> []) (decode s best)).
  { rewrite (decode_scanRuns s best Hn0'). apply filter_nonEmpty_Forall. }
  destruct (map time out) as [ | t0 ts] eqn:Etimes.
  { destruct out; [contradiction | discriminate]. }
  destruct (maximum_spec t0 ts) as [Hmax_in _].
  assert (Ht : fit_totalTime r = Some (fold_right Rmax t0 ts)) by (rewrite Htime; reflexivity).
  exists (mkVRPSolve out (fit_totalDistance r) (fit_totalTime r)).
  split; [exact Hasm | ]. cbn [routes totalDistance totalTime].
  split; [rewrite <- Hlen; split; [ | lia] | ].
  { destruct (decode s best); [contradiction | simpl; lia]. }
  split.
  { clear - Hrep Hne. induction Hrep as [ | route vr rs out Hvr _ IH]; constructor.
    - inversion Hne as [ | ? ? Hroute _]; subst.
      destruct Hvr as (Hi & _). rewrite Hi.
      destruct route as [ | x route]; [contradiction | ].
      simpl. rewrite length_app. simpl. lia.
    - apply IH. inversion Hne; assumption. }
  split; [rewrite Ht; discriminate | ].
  rewrite <- Etimes in Hmax_in. apply in_map_iff in Hmax_in.
  destruct Hmax_in as (vr & E & Hvr). exists vr. split; [exact Hvr | ].
  rewrite Ht, E. reflexivity.
Qed.

(** X12. With at least one stop, [solve] returns between one and ten routes,
    each with at least one stop between its two depot visits, and a total
    time that is not [null]: it is the time of one of the reported routes. *)
Theorem solve_plan_shape
  (warehouse : Coord) (stops0 : list Coord) (wT wD : R) (g : Rng) :
  stops0 <> [] ->
  exists plan g',
    solve Number_toString (initialSolver warehouse stops0 wT wD g)
      (initialRng warehouse stops0 g) = Some (plan, g')
    /\ (1 <= length (routes plan) <= 10)%nat
    /\ Forall (fun vr => (3 <= length (indices vr))%nat) (routes plan)
    /\ totalTime plan <> None
    /\ exists vr, In vr (routes plan) /\ totalTime plan = Some (time vr).
Proof.
  intros Hne.
  destruct (initialSolver_fields warehouse stops0 wT wD g) as (_ & _ & _ & _ & _ & Hit).
  destruct (reachable_spec warehouse stops0 wT wD g 200)
    as (s & g' & Hev & Hwf & _ & Hs & Hd & Hn & _).
  assert (HN : (1 <= length (stops s))%nat).
  { rewrite Hs. destruct stops0; [contradiction | simpl; lia]. }
  destruct (assemble_plan_shape s Hwf Hd Hn HN) as (plan & Hasm & Hshape).
  exists plan, g'. split; [ | exact Hshape].
  unfold solve. rewrite Hit, Hev. cbn [bind]. rewrite Hasm. reflexivity.
Qed.

(** X13. With 1 to 91 stops the plan of [solve] visits every stop exactly
    once: the reported index sequences are routes between two depot indices,
    each with at least one stop and no inner depot visit, and together the
    routes hold the stop indices 1..N without repetition. *)
Theorem solve_visits_every_stop_once
  (warehouse : Coord) (stops0 : list Coord) (wT wD : R) (g : Rng) :
  (1 <= length stops0 <= 91)%nat ->
  exists plan g' rs,
    solve Number_toString (initialSolver warehouse stops0 wT wD g)
      (initialRng warehouse stops0 g) = Some (plan, g')
    /\ map indices (routes plan) = map (fun r => 0%nat :: r ++ [0%nat]) rs
    /\ Forall properRoute rs
    /\ Permutation (concat rs) (Spec.stopIndices (length stops0))
    /\ NoDup (concat rs).
Proof.
  intros HN. set (s0 := initialSolver warehouse stops0 wT wD g).
  destruct (solve_spec Number_toString s0 (initialRng warehouse stops0 g)
              (initialSolver_wellFormed warehouse stops0 wT wD g))
    as (s & g' & results & best & r & out & _ & Hwf & Hcfg & _ & _ & Hin
        & Hr & Hout & Hsolve).
  destruct (sameConfig_fields _ _ Hcfg) as (_ & Hs & Hd & Hn & _).
  destruct (initialSolver_fields warehouse stops0 wT wD g) as (_ & Hs0 & Hd0 & Hn0 & _).
  fold s0 in Hs0, Hd0, Hn0. rewrite Hs0 in Hs. rewrite Hd0 in Hd. rewrite Hn0 in Hn.
  destruct (decode_covers_short s best Hwf) as (Hdec & Hperm & Hnodup);
    [rewrite Hs; lia | rewrite Hd; lia | rewrite Hs, Hd, Hn; lia | exact Hin | ].
  rewrite Hs in Hperm.
  destruct (plan_routes s best r out Hr Hout) as (Hrep & _).
  exists (mkVRPSolve out (fit_totalDistance r) (fit_totalTime r)), g', (decode s best).
  split; [exact Hsolve | ]. cbn [routes].
  split.
  { clear - Hrep. induction Hrep as [ | route vr rs out Hvr _ IH]; [reflexivity | ].
    simpl. rewrite IH. f_equal. exact (proj1 Hvr). }
  split; [ | split; assumption].
  assert (Hn0' : (0 < individualNum s)%nat) by lia.
  assert (Hnz : ~ In 0%nat (concat (decode s best))).
  { intros H0. apply (Permutation_in _ Hperm) in H0. unfold Spec.stopIndices in H0.
    apply in_seq in H0. lia. }
  assert (Hne : Forall (fun r => r <> []) (decode s best)).
  { rewrite (decode_scanRuns s best Hn0'). apply filter_nonEmpty_Forall. }
  rewrite Forall_forall in *. intros route Hroute. split; [exact (Hne _ Hroute) | ].
  intros H0. apply Hnz. apply in_concat. exists route. split; assumption.
Qed.

End PlanProperties.

Lemma solve_plan_shape_witness :
  [exampleStop] <> []
  /\ exists plan g',
       solve (fun _ : R => EmptyString)
         (initialSolver exampleDepot [exampleStop] 1 1 lateDraw)
         (initialRng exampleDepot [exampleStop] lateDraw) = Some (plan, g')
       /\ (1 <= length (routes plan) <= 10)%nat
       /\ Forall (fun vr => (3 <= length (indices vr))%nat) (routes plan)
       /\ totalTime plan <> None
       /\ exists vr, In vr (routes plan) /\ totalTime plan = Some (time vr).
Proof.
  assert (H : [exampleStop] <> []) by discriminate.
  split; [exact H | ].
  exact (solve_plan_shape (fun _ : R => EmptyString) exampleDepot [exampleStop] 1 1 lateDraw H).
Defined.

Lemma solve_visits_every_stop_once_witness :
  (1 <= length [exampleStop] <= 91)%nat
  /\ exists plan g' rs,
       solve (fun _ : R => EmptyString)
         (initialSolver exampleDepot [exampleStop] 1 1 lateDraw)
         (initialRng exampleDepot [exampleStop] lateDraw) = Some (plan, g')
       /\ map indices (routes plan) = map (fun r => 0%nat :: r ++ [0%nat]) rs
       /\ Forall properRoute rs
       /\ Permutation (concat rs) (Spec.stopIndices (length [exampleStop]))
       /\ NoDup (concat rs).
Proof.
  assert (H : (1 <= length [exampleStop] <= 91)%nat) by (simpl; lia).
  split; [exact H | ].
  exact (solve_visits_every_stop_once (fun _ : R => EmptyString) exampleDepot [exampleStop] 1 1 lateDraw H).
Defined.

(* ================================================================== *)
(** * The fittest individual *)
(* ================================================================== *)




Section FittestProperties.

Variable Number_toString : R -> string.


(** X15. [generate] never throws: for every input it builds the solver, sets
    the weights of the mode (100 and 1 for the time-optimized mode, 1 and 100
    for the distance-optimized mode, the initial 1 and 1 otherwise), runs the
    200 generations and returns the plan assembled from the final
    population. *)
Theorem generate_returns_plan (formData : PlanInput) (g : Rng) :
  exists s g' plan,
    evolve 200
      (initialSolver (warehouse formData) (input_stops formData)
         (fst (modeWeights (mode formData))) (snd (modeWeights (mode formData))) g)
      (initialRng (warehouse formData) (input_stops formData) g) = Some (s, g')
    /\ (weightTime s, weightDistance s) = modeWeights (mode formData)
    /\ length (population s) = 100%nat
    /\ assemble Number_toString s = Some plan
    /\ generate Number_toString formData g = Some (plan, g').
Proof.
  rewrite generate_initialSolver.
  destruct (modeWeights (mode formData)) as [wT wD] eqn:Ew. cbn [fst snd].
  set (s0 := initialSolver (warehouse formData) (input_stops formData) wT wD g).
  set (g0 := initialRng (warehouse formData) (input_stops formData) g).
  pose proof (initialSolver_wellFormed (warehouse formData) (input_stops formData) wT wD g)
    as Hwf0. fold s0 in Hwf0.
  destruct (initialSolver_fields (warehouse formData) (input_stops formData) wT wD g)
    as (_ & _ & _ & Hn0 & _ & Hit).
  fold s0 in Hn0, Hit.
  destruct (evolve_spec 200 s0 g0 Hwf0) as (s & g' & Hev & Hwf & Hcfg).
  destruct (sameConfig_fields _ _ Hcfg) as (_ & _ & _ & Hn & _ & _ & HwT & HwD).
  destruct (assemble_spec Number_toString s Hwf)
    as (results & best & r & out & _ & _ & _ & _ & _ & Hasm).
  exists s, g', (mkVRPSolve out (fit_totalDistance r) (fit_totalTime r)).
  split; [exact Hev | ].
  split; [rewrite HwT, HwD; reflexivity | ].
  split; [rewrite (wf_size s Hwf), Hn; exact Hn0 | ].
  split; [exact Hasm | ].
  unfold solve. rewrite Hit, Hev. cbn [bind]. rewrite Hasm. reflexivity.
Qed.

End FittestProperties.

(* ================================================================== *)
(** * Weights *)
(* ================================================================== *)

Lemma getFitness_setWeights (s : VRPSolver) (wT wD : R) (ind : Individual)
  (distances : list R) :
  mapM (getRouteDistance s) (decode s ind) = Some distances ->
  getFitness (setWeights s wT wD) ind =
  Some (mkFitnessResult
          (- Spec.score (toNumber (Radash.max (map getRouteTime distances)))
               (fold_left Rplus distances 0) wT wD)
          (decode s ind) (fold_left Rplus distances 0)
          (Radash.max (map getRouteTime distances))).
Proof.
  intros H. apply (getFitness_unfold (setWeights s wT wD) ind distances). exact H.
Qed.

(** X16. The weights only enter the fitness score: whatever the weights, the
    fitness evaluation fails on the same individuals and returns the same
    routes, total distance and total time. *)
Theorem setWeights_effect (s : VRPSolver) (wT wD wT' wD' : R) (ind : Individual) :
  (getFitness (setWeights s wT wD) ind = None
   <-> getFitness (setWeights s wT' wD') ind = None)
  /\ (forall r r',
        getFitness (setWeights s wT wD) ind = Some r ->
        getFitness (setWeights s wT' wD') ind = Some r' ->
        fit_routes r = fit_routes r'
        /\ fit_totalDistance r = fit_totalDistance r'
        /\ fit_totalTime r = fit_totalTime r').
Proof.
  destruct (mapM (getRouteDistance s) (decode s ind)) as [distances | ] eqn:Hd.
  - rewrite !(getFitness_setWeights s _ _ ind distances Hd).
    split; [split; discriminate | ].
    intros r r' Hr Hr'. injection Hr as <-. injection Hr' as <-.
    repeat split.
  - assert (Hnone : forall a b, getFitness (setWeights s a b) ind = None).
    { intros a b. unfold getFitness.
      change (decode (setWeights s a b) ind) with (decode s ind).
      change (mapM (getRouteDistance (setWeights s a b)) (decode s ind))
        with (mapM (getRouteDistance s) (decode s ind)).
      rewrite Hd. reflexivity. }
    rewrite !Hnone. split; [split; reflexivity | ].
    intros r r' Hr. discriminate.
Qed.

(* ================================================================== *)
(** * The form's validators *)
(* ================================================================== *)

Lemma isEmptyNumber_true (n : Form.Number) :
  Form.isEmptyNumber n = true <-> n = Form.NaN \/ n = Form.Finite 0.
Proof.
  destruct n as [x | ]; cbn [Form.isEmptyNumber].
  - destruct (Req_dec_T x 0) as [E | E]; split; intros H.
    + right. rewrite E. reflexivity.
    + reflexivity.
    + discriminate.
    + destruct H as [H | H]; [discriminate | ]. injection H as H. contradiction.
  - split; [intros _; left; reflexivity | reflexivity].
Qed.

Lemma isEmptyNumber_false (n : Form.Number) :
  Form.isEmptyNumber n = false <-> filled n.
Proof.
  destruct n as [x | ]; cbn [Form.isEmptyNumber filled].
  - destruct (Req_dec_T x 0) as [E | E]; split; intros H;
      try assumption; try reflexivity; [discriminate | contradiction].
  - split; [discriminate | contradiction].
Qed.

Lemma stopsValidator_resolved (value : option (list Form.Coord)) :
  Form.stopsValidator value = Form.Resolved
  <-> exists l, value = Some l /\ l <> [] /\ Forall filledCoord l.
Proof.
  unfold Form.stopsValidator. destruct value as [l | ]; cbn [Form.isEmptyArray].
  - destruct l as [ | c l]; cbn [length Nat.eqb].
    + split; [discriminate | intros (l' & E & Hne & _); injection E as <-; contradiction].
    + destruct (existsb _ (c :: l)) eqn:Ex.
      * split; [discriminate | ]. intros (l' & E & _ & Hall). injection E as <-.
        apply existsb_exists in Ex. destruct Ex as (stop & Hin & Hempty).
        rewrite Forall_forall in Hall. destruct (Hall _ Hin) as [Hlon Hlat].
        apply isEmptyNumber_false in Hlon. apply isEmptyNumber_false in Hlat.
        rewrite Hlon, Hlat in Hempty. discriminate.
      * split; [intros _ | reflexivity]. exists (c :: l).
        split; [reflexivity | ]. split; [discriminate | ].
        apply Forall_forall. intros stop Hin.
        assert (Hne : Form.isEmptyNumber (Form.longitude stop)
                      || Form.isEmptyNumber (Form.latitude stop) = false).
        { destruct (Form.isEmptyNumber (Form.longitude stop)
                    || Form.isEmptyNumber (Form.latitude stop)) eqn:E; [ | reflexivity].
          assert (Hex : existsb (fun stop => Form.isEmptyNumber (Form.longitude stop)
                                            || Form.isEmptyNumber (Form.latitude stop))
                          (c :: l) = true)
            by (apply existsb_exists; exists stop; split; assumption).
          rewrite Hex in Ex. discriminate. }
        apply orb_false_iff in Hne. destruct Hne as [H1 H2].
        split; apply isEmptyNumber_false; assumption.
  - split; [discriminate | intros (l & E & _); discriminate].
Qed.

Lemma warehouseValidator_resolved (value : option Form.Coord) :
  Form.warehouseValidator value = Form.Resolved
  <-> exists v, value = Some v /\ filledCoord v.
Proof.
  destruct value as [v | ]; cbn [Form.warehouseValidator].
  - destruct (Form.isEmptyNumber (Form.longitude v)) eqn:Elon.
    + split; [discriminate | ].
      intros (v' & E & Hlon & _). injection E as <-.
      apply isEmptyNumber_false in Hlon. rewrite Hlon in Elon. discriminate.
    + destruct (Form.isEmptyNumber (Form.latitude v)) eqn:Elat.
      * split; [discriminate | ].
        intros (v' & E & _ & Hlat). injection E as <-.
        apply isEmptyNumber_false in Hlat. rewrite Hlat in Elat. discriminate.
      * apply isEmptyNumber_false in Elon. apply isEmptyNumber_false in Elat.
        split; [intros _; exists v; repeat split; assumption | reflexivity].
  - split; [discriminate | intros (v & E & _); discriminate].
Qed.

(** X18. The validators of the form resolve exactly on a warehouse whose
    longitude and latitude are both numbers other than 0 and on a non-empty
    list of stops whose longitudes and latitudes are all such numbers:
    radash's [isEmpty] takes the number 0, and the NaN of a cleared input,
    for empty.  So a position on the equator or on the prime meridian, a
    position with a cleared input, and the stop that [addStop] appends, are
    rejected. *)
Theorem validators_resolve :
  (forall warehouse0 : option Form.Coord,
      Form.warehouseValidator warehouse0 = Form.Resolved
      <-> exists v, warehouse0 = Some v
                    /\ filled (Form.longitude v) /\ filled (Form.latitude v))
  /\ (forall stops0 : option (list Form.Coord),
        Form.stopsValidator stops0 = Form.Resolved
        <-> exists l, stops0 = Some l /\ l <> []
                      /\ Forall (fun c => filled (Form.longitude c)
                                          /\ filled (Form.latitude c)) l)
  /\ (forall n, filled n <-> n <> Form.NaN /\ n <> Form.Finite 0)
  /\ (forall l c, In c l ->
        Form.isEmptyNumber (Form.longitude c) = true
        \/ Form.isEmptyNumber (Form.latitude c) = true ->
        Form.stopsValidator (Some l) = Form.Rejected "Stop location cannot be empty!")
  /\ (forall l, In Form.newStop l ->
        Form.stopsValidator (Some l) = Form.Rejected "Stop location cannot be empty!").
Proof.
  assert (Hrej : forall l c, In c l ->
            Form.isEmptyNumber (Form.longitude c) = true
            \/ Form.isEmptyNumber (Form.latitude c) = true ->
            Form.stopsValidator (Some l)
            = Form.Rejected "Stop location cannot be empty!").
  { intros l c Hin Hempty. unfold Form.stopsValidator.
    destruct l as [ | c0 l]; [contradiction | ]. cbn [Form.isEmptyArray length Nat.eqb].
    replace (existsb _ (c0 :: l)) with true; [reflexivity | ].
    symmetry. apply existsb_exists. exists c. split; [exact Hin | ].
    apply orb_true_iff. exact Hempty. }
  split; [ | split; [ | split; [ | split]]].
  - exact warehouseValidator_resolved.
  - exact stopsValidator_resolved.
  - intros n. destruct n as [x | ]; cbn [filled].
    + split.
      * intros Hx. split; [discriminate | ]. intros E. injection E as E. contradiction.
      * intros [_ Hx] E. apply Hx. rewrite E. reflexivity.
    + split; [contradiction | ]. intros [H _]. apply H. reflexivity.
  - exact Hrej.
  - intros l Hin. apply (Hrej l Form.newStop Hin). left.
    apply isEmptyNumber_true. right. reflexivity.
Qed.

Lemma posted_filled (c : Form.Coord) :
  filledCoord c -> exists v, posted c = Some v.
Proof.
  intros [Hlon Hlat]. unfold posted.
  destruct (Form.longitude c) as [x | ]; [ | contradiction].
  destruct (Form.latitude c) as [y | ]; [ | contradiction].
  eexists; reflexivity.
Qed.

Section FormProperties.

Variable Number_toString : R -> string.

(** X19. When both validators let the form through, no field is NaN, the
    worker is posted as many stops as the form holds, and [generate]
    returns, in whatever mode, a plan of one to ten routes whose total time
    is not [null]. *)
Theorem accepted_stops_plan
  (warehouse0 : Form.Coord) (stops0 : list Form.Coord) (mode0 : PlanMode) (g : Rng) :
  Form.warehouseValidator (Some warehouse0) = Form.Resolved ->
  Form.stopsValidator (Some stops0) = Form.Resolved ->
  exists formData plan g',
    postedInput warehouse0 stops0 mode0 = Some formData
    /\ length (input_stops formData) = length stops0
    /\ mode formData = mode0
    /\ generate Number_toString formData g = Some (plan, g')
    /\ (1 <= length (routes plan) <= 10)%nat
    /\ totalTime plan <> None.
Proof.
  intros Hw Hvalid.
  apply warehouseValidator_resolved in Hw. destruct Hw as (v & E & Hv).
  injection E as <-.
  apply stopsValidator_resolved in Hvalid.
  destruct Hvalid as (l & E & Hne & Hall). injection E as <-.
  destruct (posted_filled warehouse0 Hv) as [w Hposted].
  destruct (mapM_total posted stops0) as [coords0 Hcoords].
  { eapply Forall_impl; [ | exact Hall]. intros c Hc. apply posted_filled. exact Hc. }
  pose proof (mapM_length _ _ _ Hcoords) as Hlen.
  exists (mkPlanInput w coords0 mode0).
  assert (Hne0 : coords0 <> []).
  { intros ->. destruct stops0; [contradiction | discriminate]. }
  rewrite generate_initialSolver. cbn [warehouse input_stops mode].
  destruct (modeWeights mode0) as [wT wD].
  destruct (initialSolver_fields w coords0 wT wD g) as (_ & _ & _ & _ & _ & Hit).
  destruct (reachable_spec w coords0 wT wD g 200)
    as (s & g' & Hev & Hwf & _ & Hs & Hd & Hn & _).
  assert (HN : (1 <= length (stops s))%nat).
  { rewrite Hs. destruct coords0; [contradiction | simpl; lia]. }
  destruct (assemble_plan_shape Number_toString s Hwf Hd Hn HN)
    as (plan & Hasm & Hcount & _ & Htime & _).
  exists plan, g'.
  split; [unfold postedInput; rewrite Hposted, Hcoords; reflexivity | ].
  split; [exact Hlen | ]. split; [reflexivity | ].
  split; [unfold solve; rewrite Hit, Hev; cbn [bind]; rewrite Hasm; reflexivity | ].
  split; [exact Hcount | exact Htime].
Qed.

End FormProperties.

Lemma accepted_stops_plan_witness :
  Form.warehouseValidator
    (Some (Form.mkCoord (Form.Finite 1) (Form.Finite 1))) = Form.Resolved
  /\ Form.stopsValidator
       (Some [Form.mkCoord (Form.Finite 2) (Form.Finite 3)]) = Form.Resolved
  /\ exists formData plan g',
       postedInput (Form.mkCoord (Form.Finite 1) (Form.Finite 1))
         [Form.mkCoord (Form.Finite 2) (Form.Finite 3)] TimeOptimized = Some formData
       /\ length (input_stops formData)
          = length [Form.mkCoord (Form.Finite 2) (Form.Finite 3)]
       /\ mode formData = TimeOptimized
       /\ generate (fun _ : R => EmptyString) formData lateDraw = Some (plan, g')
       /\ (1 <= length (routes plan) <= 10)%nat
       /\ totalTime plan <> None.
Proof.
  assert (Hw : Form.warehouseValidator
                 (Some (Form.mkCoord (Form.Finite 1) (Form.Finite 1))) = Form.Resolved).
  { apply warehouseValidator_resolved. eexists. split; [reflexivity | ].
    split; simpl; lra. }
  assert (H : Form.stopsValidator
                (Some [Form.mkCoord (Form.Finite 2) (Form.Finite 3)]) = Form.Resolved).
  { apply stopsValidator_resolved. eexists. split; [reflexivity | ].
    split; [discriminate | ]. repeat constructor; simpl; lra. }
  split; [exact Hw | ]. split; [exact H | ].
  exact (accepted_stops_plan (fun _ : R => EmptyString)
           (Form.mkCoord (Form.Finite 1) (Form.Finite 1))
           [Form.mkCoord (Form.Finite 2) (Form.Finite 3)] TimeOptimized lateDraw Hw H).
Defined.
